(** * A shallow embedding of [rl_exercises/week_2/my_env.py]

    The environment [MyEnv] is a small deterministic MDP: [n] states on a
    line, action [0] moves left, every other action moves right, both
    clamped to the line.  The Python object is a record of attributes; a
    method is a function from the object to the (possibly mutated) object
    and the value it returns or the exception it raises. *)

From Stdlib Require Import ZArith Lia.
From Stdlib Require Import Floats.PrimFloat.
From stdpp Require Import base option list gmap strings.

Open Scope Z_scope.

(** ** Python values: exceptions, floats, indexing *)

Inductive exn : Set :=
  | RuntimeError
  | IndexError
  | AttributeError
  | AssertionError
  | ValueError.

Inductive result (A : Type) : Type :=
  | Ok (a : A)
  | Raise (e : exn).
Arguments Ok {A} a.
Arguments Raise {A} e.

#[global] Instance result_ret : MRet result := @Ok.
#[global] Instance result_bind : MBind result :=
  λ A B k r, match r with Ok a => k a | Raise e => Raise e end.

Definition returns {A} (r : result A) : Prop := ∃ a, r = Ok a.

(** A Python [float] is an IEEE 754 binary64 number. *)
#[global] Instance float_inhabited : Inhabited float := populate 0%float.

(** Python's [x != 0] on floats. *)
Definition nonzero (x : float) : bool := negb (PrimFloat.eqb x 0%float).

(** Index normalisation shared by Python lists and numpy axes: [0 <= i < len]
    is taken as it is, [-len <= i < 0] counts from the end, anything else is
    an [IndexError]. *)
Definition norm_index (len : nat) (i : Z) : option nat :=
  if (0 <=? i) && (i <? Z.of_nat len) then Some (Z.to_nat i)
  else if (- Z.of_nat len <=? i) && (i <? 0) then Some (Z.to_nat (Z.of_nat len + i))
  else None.

(** [l[i]] *)
Definition getitem {A} (l : list A) (i : Z) : result A :=
  match norm_index (length l) i with
  | Some k => match l !! k with Some x => Ok x | None => Raise IndexError end
  | None => Raise IndexError
  end.

(** [l[i] = x] *)
Definition setitem {A} (l : list A) (i : Z) (x : A) : result (list A) :=
  match norm_index (length l) i with
  | Some k => Ok (<[k:=x]> l)
  | None => Raise IndexError
  end.

(** [for x in l: body], threading the loop-carried value and stopping at the
    first exception. *)
Fixpoint for_each {A St} (l : list A) (body : A → St → result St) (st : St)
  : result St :=
  match l with
  | [] => Ok st
  | x :: l' =>
      match body x st with
      | Ok st' => for_each l' body st'
      | Raise e => Raise e
      end
  end.

(** ** numpy arrays of floats, of rank 2 and 3 *)

Abbreviation ndarray2 := (list (list float)).
Abbreviation ndarray3 := (list (list (list float))).

(** [np.zeros((a, b))] and [np.zeros((a, b, c))]; a negative dimension is a
    [ValueError]. *)
Definition zeros2 (a b : Z) : result ndarray2 :=
  if (a <? 0) || (b <? 0) then Raise ValueError
  else Ok (replicate (Z.to_nat a) (replicate (Z.to_nat b) 0%float)).

Definition zeros3 (a b c : Z) : result ndarray3 :=
  if (a <? 0) || (b <? 0) || (c <? 0) then Raise ValueError
  else Ok (replicate (Z.to_nat a)
             (replicate (Z.to_nat b) (replicate (Z.to_nat c) 0%float))).

(** [np.ones((a, b))] *)
Definition ones2 (a b : nat) : ndarray2 := replicate a (replicate b 1%float).

(** [M[i, j]] *)
Definition getitem2 (M : ndarray2) (i j : Z) : result float :=
  row ← getitem M i; getitem row j.

(** [M[i, j] = x] *)
Definition setitem2 (M : ndarray2) (i j : Z) (x : float) : result ndarray2 :=
  row ← getitem M i;
  row' ← setitem row j x;
  setitem M i row'.

(** [T[i, j, k]] *)
Definition getitem3 (T : ndarray3) (i j k : Z) : result float :=
  plane ← getitem T i; row ← getitem plane j; getitem row k.

(** [T[i, j, k] = x] *)
Definition setitem3 (T : ndarray3) (i j k : Z) (x : float) : result ndarray3 :=
  plane ← getitem T i;
  row ← getitem plane j;
  row' ← setitem row k x;
  plane' ← setitem plane j row';
  setitem T i plane'.

(** [np.arange(n)] and [range(n)] *)
Definition arange (n : Z) : list Z := seqZ 0 n.

(** The seeds [np.random.default_rng] takes: no seed, or a non-negative
    integer. *)
Definition valid_seed (seed : option Z) : bool :=
  match seed with
  | None => true
  | Some k => 0 <=? k
  end.

(** [np.random.default_rng(seed)]; numpy is library code outside the source
    tree.  The generator is represented by the seed it was made from; a
    negative seed is a [ValueError]. *)
Definition default_rng (seed : option Z) : result (option Z) :=
  if valid_seed seed then Ok seed else Raise ValueError.

(** The rows all have the length of the first one. *)
Definition rectangular (rows : list (list float)) : bool :=
  match rows with
  | [] => true
  | row :: rows' => forallb (λ row', Nat.eqb (length row') (length row)) rows'
  end.

(** [np.array(rows)] on a list of rows of floats: the rows become the
    first axis of the array; rows of unequal length are a [ValueError]. *)
Definition np_array (rows : list (list float)) : result ndarray2 :=
  if rectangular rows then Ok rows else Raise ValueError.

(** ** The space type of the environment *)

Module Discrete.

(** Modelled from the spec: [gym.spaces.Discrete] comes from the gymnasium
    package, which is not part of the source tree.  Following the design
    notes it is a bounded integer range [{0, ..., n-1}] with a [contains]
    predicate; the library refuses to build an empty range. *)
Record t : Set := Build { n : Z }.

Definition make (n : Z) : result t :=
  if 0 <? n then Ok (Build n) else Raise AssertionError.

Definition contains (d : t) (x : Z) : bool := (0 <=? x) && (x <? n d).

End Discrete.

(** ** The environment *)

Module MyEnv.

(** The attributes of a [MyEnv] object.  An attribute that no assignment
    has bound yet is [None]: [__init__] binds neither [transition_count]
    nor, before its last statement, [transition_matrix] and [T].  The
    generator [rng] is represented by the seed it was made from; nothing
    ever draws from it.  The entries of [P] and [rewards] are kept as the
    floats that [float(...)] makes of them wherever they are read. *)
Record t : Type := Build {
  rng : option Z;
  P : ndarray2;
  rewards : list float;
  horizon : Z;
  state : Z;
  observation_space : Discrete.t;
  action_space : Discrete.t;
  states : list Z;
  actions : list Z;
  transition_matrix : option ndarray3;
  T : option ndarray3;
  transition_count : option Z
}.

Definition set_state (v : Z) (self : t) : t :=
  Build (rng self) (P self) (rewards self) (horizon self) v
    (observation_space self) (action_space self) (states self)
    (actions self) (transition_matrix self) (T self)
    (transition_count self).

Definition set_transition_count (v : Z) (self : t) : t :=
  Build (rng self) (P self) (rewards self) (horizon self) (state self)
    (observation_space self) (action_space self) (states self)
    (actions self) (transition_matrix self) (T self) (Some v).

(** [self.transition_matrix = self.T = v] *)
Definition set_transition_matrix_T (v : ndarray3) (self : t) : t :=
  Build (rng self) (P self) (rewards self) (horizon self) (state self)
    (observation_space self) (action_space self) (states self)
    (actions self) (Some v) (Some v) (transition_count self).

(** What [step] returns. *)
Record step_result : Type := StepResult {
  next_state : Z;
  reward : float;
  terminated : bool;
  truncated : bool;
  info : gmap string Z
}.

(** [max(0, min(nS - 1, s + (-1 if a == 0 else 1)))], the expression that
    [step], [get_reward_per_action] and [get_transition_matrix] each
    spell out. *)
Definition move (nS s a : Z) : Z :=
  Z.max 0 (Z.min (nS - 1) (s + (if a =? 0 then -1 else 1))).

(** [get_transition_matrix(self, S=None, A=None, P=None)] *)
Definition get_transition_matrix
    (S_arg A_arg : option (list Z)) (P_arg : option ndarray2) (self : t)
  : t * result ndarray3 :=
  let '(S0, A0, P0) :=
    match S_arg, A_arg, P_arg with
    | Some S1, Some A1, Some P1 => (S1, A1, P1)
    | _, _, _ => (states self, actions self, P self)
    end in
  let nS := Z.of_nat (length S0) in
  let nA := Z.of_nat (length A0) in
  (self,
   T0 ← zeros3 nS nA nS;
   for_each S0 (λ s T1,
     for_each A0 (λ a T2,
       let s_next := move nS s a in
       p ← getitem2 P0 s a;
       setitem3 T2 s a s_next p) T1) T0).

(** [__init__(self, transition_probabilities, horizon, rewards, seed)] *)
Definition __init__ (transition_probabilities : list (list float))
    (horizon : Z) (rewards : list float) (seed : option Z) : result t :=
  rng ← default_rng seed;
  P ← np_array transition_probabilities;
  let n := Z.of_nat (length P) in
  observation_space ← Discrete.make n;
  action_space ← Discrete.make n;
  let self :=
    Build rng P rewards horizon 0
      observation_space action_space (arange n) (arange n)
      None None None in
  let '(self, r) := get_transition_matrix None None None self in
  T0 ← r;
  Ok (set_transition_matrix_T T0 self).

(** [MyEnv()] with every argument at its default. *)
Definition default : result t :=
  __init__ (ones2 2 2) 10 [0%float; 1%float] None.

(** [reset(self, *, seed=None, options=None)] *)
Definition reset (self : t) : t * result (Z * gmap string Z) :=
  let self := set_transition_count 0 self in
  let self := set_state 0 self in
  (self, Ok (state self, ∅)).

(** [step(self, action)] *)
Definition step (action : Z) (self : t) : t * result step_result :=
  if negb (Discrete.contains (action_space self) action) then
    (self, Raise RuntimeError)
  else
    let self :=
      set_state
        (move (Discrete.n (observation_space self)) (state self) action)
        self in
    match getitem (rewards self) (state self) with
    | Raise e => (self, Raise e)
    | Ok reward =>
        let terminated := false in
        match transition_count self with
        | None => (self, Raise AttributeError)
        | Some count =>
            let truncated := count >=? horizon self in
            (self, Ok (StepResult (state self) reward terminated truncated ∅))
        end
    end.

(** [get_reward_per_action(self)] *)
Definition get_reward_per_action (self : t) : t * result ndarray2 :=
  let nS := Discrete.n (observation_space self) in
  let nA := Discrete.n (action_space self) in
  (self,
   R0 ← zeros2 nS nA;
   for_each (arange nS) (λ s R1,
     for_each (arange nA) (λ a R2,
       let nxt := move nS s a in
       r ← getitem (rewards self) nxt;
       setitem2 R2 s a r) R1) R0).

End MyEnv.

(** ** The clamp of the specification *)

(** [clamp x lo hi] as the specification words it: [x] forced into
    [[lo, hi]]. *)
Definition clamp (x lo hi : Z) : Z :=
  if x <? lo then lo else if hi <? x then hi else x.

(** The deterministic successor of the specification. *)
Definition successor (n s a : Z) : Z :=
  clamp (s + (if a =? 0 then -1 else 1)) 0 (n - 1).

(** ** Operation histories *)

(** The calls a client can make on a constructed object. *)
Inductive op : Type :=
  | Reset
  | Step (action : Z)
  | GetRewardPerAction
  | GetTransitionMatrix (S_arg A_arg : option (list Z)) (P_arg : option ndarray2).

(** The object after one call, whether the call returned or raised. *)
Definition exec (o : op) (self : MyEnv.t) : MyEnv.t :=
  match o with
  | Reset => fst (MyEnv.reset self)
  | Step a => fst (MyEnv.step a self)
  | GetRewardPerAction => fst (MyEnv.get_reward_per_action self)
  | GetTransitionMatrix S0 A0 P0 => fst (MyEnv.get_transition_matrix S0 A0 P0 self)
  end.

(** An instance is what [__init__] returned, after any history of calls. *)
Inductive instance : MyEnv.t → Prop :=
  | instance_init tp h r seed self :
      MyEnv.__init__ tp h r seed = Ok self → instance self
  | instance_exec o self :
      instance self → instance (exec o self).

(** Everything but [state] and [transition_count] coincides. *)
Definition same_config (e e' : MyEnv.t) : Prop :=
  MyEnv.rng e' = MyEnv.rng e ∧
  MyEnv.P e' = MyEnv.P e ∧
  MyEnv.rewards e' = MyEnv.rewards e ∧
  MyEnv.horizon e' = MyEnv.horizon e ∧
  MyEnv.observation_space e' = MyEnv.observation_space e ∧
  MyEnv.action_space e' = MyEnv.action_space e ∧
  MyEnv.states e' = MyEnv.states e ∧
  MyEnv.actions e' = MyEnv.actions e ∧
  MyEnv.transition_matrix e' = MyEnv.transition_matrix e ∧
  MyEnv.T e' = MyEnv.T e.

(** A run of [step] calls on one object; an exception leaves the object as
    the failed call left it and the client goes on. *)
Fixpoint steps (acts : list Z) (self : MyEnv.t)
  : MyEnv.t * list (result MyEnv.step_result) :=
  match acts with
  | [] => (self, [])
  | a :: acts' =>
      let '(self1, r) := MyEnv.step a self in
      let '(self2, rs) := steps acts' self1 in
      (self2, r :: rs)
  end.

(** The number of states an object was built with. *)
Definition num_states (self : MyEnv.t) : Z :=
  Discrete.n (MyEnv.observation_space self).

(** The rewards table has an entry for every state. *)
Definition rewards_cover (self : MyEnv.t) : Prop :=
  1 ≤ num_states self ≤ Z.of_nat (length (MyEnv.rewards self)).

(** [reset] has run at least once: [transition_count] is bound. *)
Definition episode_started (self : MyEnv.t) : Prop :=
  is_Some (MyEnv.transition_count self).

(** ** Arrays: shapes and cells *)

(** [M.shape == (a, b)] and [T.shape == (a, b, c)]. *)
Definition shape2 (a b : Z) (M : ndarray2) : Prop :=
  Z.of_nat (length M) = a ∧ Forall (λ row, Z.of_nat (length row) = b) M.

Definition shape3 (a b c : Z) (T : ndarray3) : Prop :=
  Z.of_nat (length T) = a ∧ Forall (shape2 b c) T.

(** The entry at a non-negative index, [0.0] outside the array. *)
Definition cell2 (M : ndarray2) (i j : Z) : float :=
  (M !!! Z.to_nat i) !!! Z.to_nat j.

Definition cell3 (T : ndarray3) (i j k : Z) : float :=
  cell2 (T !!! Z.to_nat i) j k.

(** ** Loop invariants and the instance invariant *)

(** The array [get_transition_matrix] computes once it has chosen [S], [A]
    and [P]. *)
Definition transition_tensor (S0 A0 : list Z) (P0 : ndarray2)
  : result ndarray3 :=
  let nS := Z.of_nat (length S0) in
  let nA := Z.of_nat (length A0) in
  T0 ← zeros3 nS nA nS;
  for_each S0 (λ s T1,
    for_each A0 (λ a T2,
      p ← getitem2 P0 s a;
      setitem3 T2 s a (MyEnv.move nS s a) p) T1) T0.

(** The tensor in which the cells [(i, j, move i j)] of the pairs in [W]
    hold [P0[i, j]] and every other cell holds 0. *)
Definition tensor_inv (nS nA : Z) (P0 : ndarray2)
    (W : Z → Z → Prop) (T : ndarray3) : Prop :=
  shape3 nS nA nS T
  ∧ ∀ i j k, 0 ≤ i < nS → 0 ≤ j < nA → 0 ≤ k < nS →
      (W i j ∧ k = MyEnv.move nS i j → getitem2 P0 i j = Ok (cell3 T i j k))
      ∧ (¬ (W i j ∧ k = MyEnv.move nS i j) → cell3 T i j k = 0%float).

(** The array in which the cells of [W] hold the reward of their successor
    and every other cell holds 0. *)
Definition reward_inv (nS nA : Z) (rewards : list float)
    (W : Z → Z → Prop) (R : ndarray2) : Prop :=
  shape2 nS nA R
  ∧ ∀ i j, 0 ≤ i < nS → 0 ≤ j < nA →
      (W i j → getitem rewards (MyEnv.move nS i j) = Ok (cell2 R i j))
      ∧ (¬ W i j → cell2 R i j = 0%float).

(** What [__init__] establishes and every later call keeps. *)
Definition well_formed (self : MyEnv.t) : Prop :=
  let n := num_states self in
  1 ≤ n
  ∧ Z.of_nat (length (MyEnv.P self)) = n
  ∧ Discrete.n (MyEnv.action_space self) = n
  ∧ MyEnv.states self = arange n
  ∧ MyEnv.actions self = arange n
  ∧ (∀ s a, 0 ≤ s < n → 0 ≤ a < n → returns (getitem2 (MyEnv.P self) s a))
  ∧ 0 ≤ MyEnv.state self ≤ n - 1
  ∧ ∃ T0, MyEnv.T self = Some T0
          ∧ MyEnv.transition_matrix self = Some T0
          ∧ transition_tensor (MyEnv.states self) (MyEnv.actions self)
              (MyEnv.P self) = Ok T0.

(** ** Sample objects *)

(** The object [MyEnv()] builds, attribute by attribute. *)
Definition default_env : MyEnv.t :=
  MyEnv.Build None [[1; 1]; [1; 1]]%float [0; 1]%float 10 0
    (Discrete.Build 2) (Discrete.Build 2) [0; 1] [0; 1]
    (Some [[[1; 0]; [0; 1]]; [[1; 0]; [0; 1]]]%float)
    (Some [[[1; 0]; [0; 1]]; [[1; 0]; [0; 1]]]%float)
    None.

(** [MyEnv()] after its first [reset()]. *)
Definition started_env : MyEnv.t := fst (MyEnv.reset default_env).

(** The object [MyEnv(transition_probabilities=[[1, 0], [0, 1]])]. *)
Definition identity_env : MyEnv.t :=
  MyEnv.Build None [[1; 0]; [0; 1]]%float [0; 1]%float 10 0
    (Discrete.Build 2) (Discrete.Build 2) [0; 1] [0; 1]
    (Some [[[1; 0]; [0; 0]]; [[0; 0]; [0; 1]]]%float)
    (Some [[[1; 0]; [0; 0]]; [[0; 0]; [0; 1]]]%float)
    None.

(** A probability matrix a caller may pass instead of the object's own. *)
Definition halves : ndarray2 := [[0.5; 0.5]; [0.5; 0.5]]%float.

(** The object [MyEnv(np.ones((3, 3)), horizon=5, rewards=[0, 0.5, 1])], a
    line of three states; [default_env] stands in for the impossible case. *)
Definition line3_env : MyEnv.t :=
  match MyEnv.__init__ (ones2 3 3) 5 [0; 0.5; 1]%float None with
  | Ok self => self
  | Raise _ => default_env
  end.

(** The object [MyEnv(np.ones((3, 3)), horizon=5, rewards=[0, 1])]: three
    states, two rewards. *)
Definition short_rewards_env : MyEnv.t :=
  match MyEnv.__init__ (ones2 3 3) 5 [0; 1]%float None with
  | Ok self => self
  | Raise _ => default_env
  end.

(** * Properties *)

(** ** Indexing *)

Section indexing.
Context {A : Type}.
Implicit Types (l : list A) (i : Z).

Lemma norm_index_in_range len i :
  0 ≤ i < Z.of_nat len → norm_index len i = Some (Z.to_nat i).
Proof.
  intros Hi. unfold norm_index.
  destruct (Z.leb_spec 0 i), (Z.ltb_spec i (Z.of_nat len)); simpl; auto; lia.
Qed.

Lemma getitem_in_range `{!Inhabited A} l i :
  0 ≤ i < Z.of_nat (length l) → getitem l i = Ok (l !!! Z.to_nat i).
Proof.
  intros Hi. unfold getitem. rewrite norm_index_in_range by done.
  rewrite list_lookup_lookup_total_lt by lia. done.
Qed.

Lemma getitem_lookup l i x :
  0 ≤ i → l !! Z.to_nat i = Some x → getitem l i = Ok x.
Proof.
  intros Hi Hx. unfold getitem.
  apply lookup_lt_Some in Hx as Hlt.
  rewrite norm_index_in_range by lia. by rewrite Hx.
Qed.

Lemma getitem_returns l i :
  0 ≤ i < Z.of_nat (length l) → returns (getitem l i).
Proof.
  intros Hi. destruct (lookup_lt_is_Some_2 l (Z.to_nat i)) as [x Hx]; [lia|].
  exists x. apply getitem_lookup; [lia|done].
Qed.

Lemma setitem_in_range l i x :
  0 ≤ i < Z.of_nat (length l) → setitem l i x = Ok (<[Z.to_nat i:=x]> l).
Proof. intros Hi. unfold setitem. by rewrite norm_index_in_range. Qed.
End indexing.

(** ** The movement rule *)

Lemma move_successor n s a : 1 ≤ n → MyEnv.move n s a = successor n s a.
Proof.
  intros Hn. unfold MyEnv.move, successor, clamp.
  destruct (Z.ltb_spec (s + (if a =? 0 then -1 else 1)) 0),
    (Z.ltb_spec (n - 1) (s + (if a =? 0 then -1 else 1))); lia.
Qed.

Lemma successor_range {n} s a : 1 ≤ n → 0 ≤ successor n s a ≤ n - 1.
Proof.
  intros Hn. unfold successor, clamp.
  destruct (Z.ltb_spec (s + (if a =? 0 then -1 else 1)) 0),
    (Z.ltb_spec (n - 1) (s + (if a =? 0 then -1 else 1))); lia.
Qed.

Lemma contains_range d x :
  Discrete.contains d x = true ↔ 0 ≤ x ≤ Discrete.n d - 1.
Proof.
  unfold Discrete.contains. rewrite andb_true_iff, Z.leb_le, Z.ltb_lt. lia.
Qed.

(** ** [reset] *)

(** C7: whatever the object went through before, [reset] binds [state] and
    [transition_count] to 0, touches nothing else, and returns the pair of
    0 and an empty dictionary; it has no failing path. *)
Theorem reset_spec (self : MyEnv.t) :
  MyEnv.reset self
    = (MyEnv.set_state 0 (MyEnv.set_transition_count 0 self), Ok (0, ∅))
  ∧ MyEnv.state (fst (MyEnv.reset self)) = 0
  ∧ MyEnv.transition_count (fst (MyEnv.reset self)) = Some 0
  ∧ same_config self (fst (MyEnv.reset self))
  ∧ ∀ history, let self' := foldl (λ e o, exec o e) self history in
      snd (MyEnv.reset self') = Ok (0, ∅)
      ∧ MyEnv.state (fst (MyEnv.reset self')) = 0
      ∧ MyEnv.transition_count (fst (MyEnv.reset self')) = Some 0.
Proof. repeat split. Qed.

(** ** [step] *)

Section step.
Variable self : MyEnv.t.
Variable action : Z.

Lemma step_invalid :
  Discrete.contains (MyEnv.action_space self) action = false →
  MyEnv.step action self = (self, Raise RuntimeError).
Proof. intros H. unfold MyEnv.step. by rewrite H. Qed.

(** The three ways a call with a valid action can end. *)
Lemma step_valid :
  Discrete.contains (MyEnv.action_space self) action = true →
  let self' :=
    MyEnv.set_state
      (MyEnv.move (num_states self) (MyEnv.state self) action) self in
  fst (MyEnv.step action self) = self' ∧
  match getitem (MyEnv.rewards self) (MyEnv.state self') with
  | Raise e => snd (MyEnv.step action self) = Raise e
  | Ok r =>
      match MyEnv.transition_count self with
      | None => snd (MyEnv.step action self) = Raise AttributeError
      | Some c =>
          snd (MyEnv.step action self)
          = Ok (MyEnv.StepResult (MyEnv.state self') r false
                  (c >=? MyEnv.horizon self) ∅)
      end
  end.
Proof.
  intros H. unfold MyEnv.step. rewrite H. simpl.
  destruct (getitem _ _); [|done].
  by destruct (MyEnv.transition_count self).
Qed.

Lemma step_same_config : same_config self (fst (MyEnv.step action self)).
Proof.
  destruct (Discrete.contains (MyEnv.action_space self) action) eqn:H.
  - destruct (step_valid H) as [-> _]. by repeat split.
  - rewrite (step_invalid H). by repeat split.
Qed.

Lemma step_transition_count :
  MyEnv.transition_count (fst (MyEnv.step action self))
  = MyEnv.transition_count self.
Proof.
  destruct (Discrete.contains (MyEnv.action_space self) action) eqn:H.
  - by destruct (step_valid H) as [-> _].
  - by rewrite (step_invalid H).
Qed.

Lemma step_Ok out :
  snd (MyEnv.step action self) = Ok out →
  Discrete.contains (MyEnv.action_space self) action = true
  ∧ ∃ c, MyEnv.transition_count self = Some c
    ∧ getitem (MyEnv.rewards self)
        (MyEnv.move (num_states self) (MyEnv.state self) action)
      = Ok (MyEnv.reward out)
    ∧ out = MyEnv.StepResult
              (MyEnv.move (num_states self) (MyEnv.state self) action)
              (MyEnv.reward out) false (c >=? MyEnv.horizon self) ∅.
Proof.
  destruct (Discrete.contains (MyEnv.action_space self) action) eqn:H.
  - destruct (step_valid H) as [_ Hs]. simpl in Hs.
    destruct (getitem _ _) as [r|e] eqn:Hr; [|by rewrite Hs].
    destruct (MyEnv.transition_count self) as [c|]; [|by rewrite Hs].
    rewrite Hs. intros [= <-]. split; [done|]. by exists c.
  - by rewrite (step_invalid H).
Qed.

Lemma step_returns :
  Discrete.contains (MyEnv.action_space self) action = true →
  rewards_cover self → episode_started self →
  returns (snd (MyEnv.step action self)).
Proof.
  intros H [Hn Hr] [c Hc]. destruct (step_valid H) as [_ Hs].
  simpl in Hs. rewrite Hc in Hs.
  destruct (getitem_returns (MyEnv.rewards self)
              (MyEnv.move (num_states self) (MyEnv.state self) action))
    as [r Hget].
  { rewrite move_successor by done.
    pose proof (successor_range (n:=num_states self) (MyEnv.state self) action Hn). lia. }
  rewrite Hget in Hs. by eexists.
Qed.
End step.

Lemma getitem_Raise {A} (l : list A) i e : getitem l i = Raise e → e = IndexError.
Proof.
  unfold getitem. destruct (norm_index _ _); [|congruence].
  destruct (l !! _); congruence.
Qed.

Lemma default_is_default_env : MyEnv.default = Ok default_env.
Proof. reflexivity. Qed.

(** A successful read at a non-negative index is the list's entry there. *)
Lemma getitem_Ok_lookup {A} (l : list A) i x :
  0 ≤ i → getitem l i = Ok x → l !! Z.to_nat i = Some x.
Proof.
  unfold getitem, norm_index. intros Hi.
  destruct (Z.leb_spec 0 i); [|lia].
  destruct (Z.ltb_spec i (Z.of_nat (length l))); simpl.
  - destruct (l !! Z.to_nat i); congruence.
  - destruct (Z.leb_spec (- Z.of_nat (length l)) i), (Z.ltb_spec i 0);
      simpl; try discriminate; lia.
Qed.

(** C1: on an object with [n] states whose current state [s] lies in
    [[0, n-1]], [step] with an action [a] of [{0, ..., n-1}] binds [state] to
    [clamp(s + (-1 if a == 0 else +1), 0, n-1)], which lies in [[0, n-1]];
    when the call returns, it returns that state together with the entry of
    the rewards table at that state; and it does return once [reset] has run
    and the table has an entry for each of the [n] states. *)
Theorem step_transition_rule (self : MyEnv.t) (n s a : Z) :
  num_states self = n →
  Discrete.n (MyEnv.action_space self) = n →
  MyEnv.state self = s →
  0 ≤ s ≤ n - 1 →
  0 ≤ a ≤ n - 1 →
  let next := clamp (s + (if a =? 0 then -1 else 1)) 0 (n - 1) in
  0 ≤ next ≤ n - 1
  ∧ MyEnv.state (fst (MyEnv.step a self)) = next
  ∧ (∀ out, snd (MyEnv.step a self) = Ok out →
       MyEnv.next_state out = next
       ∧ MyEnv.rewards self !! Z.to_nat next = Some (MyEnv.reward out))
  ∧ (n ≤ Z.of_nat (length (MyEnv.rewards self)) → episode_started self →
       ∃ out, snd (MyEnv.step a self) = Ok out
              ∧ MyEnv.next_state out = next
              ∧ MyEnv.rewards self !! Z.to_nat next
                = Some (MyEnv.reward out)).
Proof.
  intros Hn Hact Hs Hrange Ha next.
  assert (1 ≤ n) as Hpos by lia.
  assert (0 ≤ next ≤ n - 1) as Hnext by apply (successor_range s a Hpos).
  assert (MyEnv.move (num_states self) (MyEnv.state self) a = next) as Hmove.
  { rewrite Hn, Hs. by apply move_successor. }
  assert (Discrete.contains (MyEnv.action_space self) a = true) as Hvalid.
  { apply contains_range. lia. }
  assert (∀ out, snd (MyEnv.step a self) = Ok out →
            MyEnv.next_state out = next
            ∧ MyEnv.rewards self !! Z.to_nat next
              = Some (MyEnv.reward out)) as Hout.
  { intros out (_ & c & _ & Hr & ->)%step_Ok. rewrite Hmove in *.
    split; [done|]. apply getitem_Ok_lookup; [lia|done]. }
  split; [exact Hnext|].
  split; [destruct (step_valid self a Hvalid) as [-> _]; exact Hmove|].
  split; [exact Hout|].
  intros Hlen Hstarted.
  destruct (step_returns self a Hvalid) as [out Hret]; [|done|].
  { unfold rewards_cover. lia. }
  exists out. split; [done|]. by apply Hout.
Qed.

Lemma step_transition_rule_witness :
  MyEnv.state (fst (MyEnv.step 1 started_env)) = 1
  ∧ ∃ out, snd (MyEnv.step 1 started_env) = Ok out
           ∧ MyEnv.next_state out = 1
           ∧ MyEnv.reward out = 1%float.
Proof.
  destruct (step_transition_rule started_env 2 0 1)
    as (_ & Hstate & _ & Hret); [reflexivity..|lia|lia|].
  split; [exact Hstate|].
  destruct Hret as (out & Hout & Hnext & Hreward); [simpl; lia|by exists 0|].
  exists out. split; [exact Hout|]. split; [exact Hnext|].
  simpl in Hreward. by injection Hreward as <-.
Defined.

(** C5: [step] raises the invalid-action error ([RuntimeError]) exactly when
    the action is outside [{0, ..., n-1}], [n] the size of the action space;
    a call that raises it leaves the object, in particular [state] and
    [transition_count], as it was. *)
Theorem step_invalid_action (self : MyEnv.t) (action : Z) :
  (snd (MyEnv.step action self) = Raise RuntimeError
   ↔ ¬ (0 ≤ action ≤ Discrete.n (MyEnv.action_space self) - 1))
  ∧ (snd (MyEnv.step action self) = Raise RuntimeError →
     fst (MyEnv.step action self) = self
     ∧ MyEnv.state (fst (MyEnv.step action self)) = MyEnv.state self
     ∧ MyEnv.transition_count (fst (MyEnv.step action self))
       = MyEnv.transition_count self).
Proof.
  rewrite <- contains_range.
  destruct (Discrete.contains (MyEnv.action_space self) action) eqn:H.
  - assert (snd (MyEnv.step action self) ≠ Raise RuntimeError) as Hne.
    { destruct (step_valid self action H) as [_ Hs]. simpl in Hs.
      destruct (getitem _ _) as [r|e] eqn:Hr.
      - destruct (MyEnv.transition_count self); by rewrite Hs.
      - rewrite Hs. apply getitem_Raise in Hr as ->. done. }
    split; [split; intros; done|done].
  - rewrite (step_invalid self action H). split; [split; [|done]|done].
    intros _. congruence.
Qed.

Lemma step_invalid_action_witness :
  MyEnv.step 2 started_env = (started_env, Raise RuntimeError)
  ∧ MyEnv.step (-1) started_env = (started_env, Raise RuntimeError).
Proof.
  destruct (step_invalid_action started_env 2) as [[_ H2] F2].
  destruct (step_invalid_action started_env (-1)) as [[_ H1] F1].
  assert (snd (MyEnv.step 2 started_env) = Raise RuntimeError) as E2
    by (apply H2; simpl; lia).
  assert (snd (MyEnv.step (-1) started_env) = Raise RuntimeError) as E1
    by (apply H1; simpl; lia).
  destruct (F2 E2) as [G2 _]. destruct (F1 E1) as [G1 _].
  split; apply injective_projections; simpl; assumption.
Defined.

(** C9: whatever the object, its history and the action, a [step] that
    returns returns [terminated = False]; and with a valid action, after a
    [reset], on a rewards table that covers the states, it does return. *)
Theorem step_terminated_false (self : MyEnv.t) (action : Z) :
  (∀ out, snd (MyEnv.step action self) = Ok out → MyEnv.terminated out = false)
  ∧ (Discrete.contains (MyEnv.action_space self) action = true →
     rewards_cover self → episode_started self →
     ∃ out, snd (MyEnv.step action self) = Ok out
            ∧ MyEnv.terminated out = false).
Proof.
  assert (∀ out, snd (MyEnv.step action self) = Ok out →
            MyEnv.terminated out = false) as Hout.
  { by intros out (_ & c & _ & _ & ->)%step_Ok. }
  split; [exact Hout|].
  intros Hvalid Hcover Hstarted.
  destruct (step_returns self action Hvalid Hcover Hstarted) as [out Hret].
  exists out. auto.
Qed.

Lemma step_terminated_false_witness :
  ∃ out, snd (MyEnv.step 0 started_env) = Ok out
         ∧ MyEnv.terminated out = false.
Proof.
  apply (step_terminated_false started_env 0);
    [reflexivity|unfold rewards_cover, num_states; simpl; lia|by exists 0].
Defined.

(** ** Episodes *)

Lemma same_config_trans e1 e2 e3 :
  same_config e1 e2 → same_config e2 e3 → same_config e1 e3.
Proof. unfold same_config. intuition congruence. Qed.

Lemma same_config_refl e : same_config e e.
Proof. by repeat split. Qed.

Lemma rewards_cover_same_config e e' :
  same_config e e' → rewards_cover e → rewards_cover e'.
Proof.
  unfold rewards_cover, num_states. intros (_ & _ & -> & _ & -> & _). done.
Qed.

(** Along a run of [step] calls that starts with the counter at 0, the
    counter stays at 0 and every returned [truncated] is [0 >= horizon]. *)
Lemma steps_counter_zero acts : ∀ e,
  MyEnv.transition_count e = Some 0 →
  MyEnv.transition_count (fst (steps acts e)) = Some 0
  ∧ same_config e (fst (steps acts e))
  ∧ length (snd (steps acts e)) = length acts
  ∧ Forall (λ r, ∀ out, r = Ok out →
              MyEnv.truncated out = (0 >=? MyEnv.horizon e))
      (snd (steps acts e))
  ∧ (rewards_cover e →
     Forall (λ a, Discrete.contains (MyEnv.action_space e) a = true) acts →
     Forall returns (snd (steps acts e))).
Proof.
  induction acts as [|a acts IH]; intros e Hc; simpl.
  { repeat split; auto using same_config_refl. }
  destruct (MyEnv.step a e) as [e1 r] eqn:Hstep.
  assert (e1 = fst (MyEnv.step a e)) as He1 by by rewrite Hstep.
  assert (r = snd (MyEnv.step a e)) as Hr by by rewrite Hstep.
  assert (same_config e e1) as Hsame by (subst e1; apply step_same_config).
  assert (MyEnv.transition_count e1 = Some 0) as Hc1.
  { subst e1. by rewrite step_transition_count. }
  destruct (IH e1 Hc1) as (IHc & IHsame & IHlen & IHtr & IHret).
  destruct (steps acts e1) as [e2 rs]. simpl in *.
  assert (MyEnv.horizon e1 = MyEnv.horizon e) as Hh by apply Hsame.
  assert (MyEnv.action_space e1 = MyEnv.action_space e) as Ha by apply Hsame.
  split; [done|]. split; [by eapply same_config_trans|].
  split; [by rewrite IHlen|]. split.
  - constructor; [|by rewrite <- Hh].
    intros out ->. symmetry in Hr.
    apply step_Ok in Hr as (_ & c & Hc' & _ & ->). simpl.
    congruence.
  - intros Hcover Hvalid. inversion Hvalid as [|? ? Hva Hvs]; subst.
    constructor.
    + apply step_returns; [done..|by exists 0].
    + apply IHret; [by eapply rewards_cover_same_config|by rewrite Ha].
Qed.

(** C2: a [step] that returns, returns [truncated = (transition_count >=
    horizon)] and leaves the counter as it was; hence, in an episode opened
    by [reset], the counter is 0 throughout and every [step] returns
    [truncated = (0 >= horizon)], which is [False] when the horizon is
    positive.  Every such [step] does return when the actions are valid and
    the rewards table covers the states. *)
Theorem truncated_never_fires (self : MyEnv.t) (acts : list Z) :
  let start := fst (MyEnv.reset self) in
  let run := steps acts start in
  (∀ e a out, snd (MyEnv.step a e) = Ok out →
     ∃ c, MyEnv.transition_count e = Some c
          ∧ MyEnv.truncated out = (c >=? MyEnv.horizon e)
          ∧ MyEnv.transition_count (fst (MyEnv.step a e)) = Some c)
  ∧ MyEnv.transition_count start = Some 0
  ∧ MyEnv.transition_count (fst run) = Some 0
  ∧ length (snd run) = length acts
  ∧ Forall (λ r, ∀ out, r = Ok out →
              MyEnv.truncated out = (0 >=? MyEnv.horizon self)
              ∧ (0 < MyEnv.horizon self → MyEnv.truncated out = false))
      (snd run)
  ∧ (rewards_cover self →
     Forall (λ a, Discrete.contains (MyEnv.action_space self) a = true) acts →
     Forall returns (snd run)).
Proof.
  intros start run.
  destruct (steps_counter_zero acts start eq_refl)
    as (Hc & _ & Hlen & Htr & Hret).
  split.
  { intros e a out Hout. pose proof Hout as (_ & c & Hc' & _ & ->)%step_Ok.
    exists c. rewrite step_transition_count. done. }
  split; [done|]. split; [done|]. split; [done|]. split; [|exact Hret].
  eapply Forall_impl; [exact Htr|]. simpl.
  intros r Hr out ->. rewrite (Hr out eq_refl). split; [done|].
  intros Hpos. rewrite Z.geb_leb. by apply Z.leb_gt.
Qed.

Lemma truncated_never_fires_witness :
  Forall (λ r, ∀ out, r = Ok out →
            MyEnv.truncated out = (0 >=? 10)
            ∧ (0 < 10 → MyEnv.truncated out = false))
    (snd (steps [1; 0; 0; 1] (fst (MyEnv.reset default_env))))
  ∧ Forall returns (snd (steps [1; 0; 0; 1] (fst (MyEnv.reset default_env)))).
Proof.
  destruct (truncated_never_fires default_env [1; 0; 0; 1])
    as (_ & _ & _ & _ & Htr & Hret).
  split; [exact Htr|].
  apply Hret; [unfold rewards_cover, num_states; simpl; lia|].
  repeat constructor.
Defined.

(** ** Frame *)

Lemma get_transition_matrix_fst S0 A0 P0 self :
  fst (MyEnv.get_transition_matrix S0 A0 P0 self) = self.
Proof. unfold MyEnv.get_transition_matrix. by destruct S0, A0, P0. Qed.

Lemma exec_same_config o self : same_config self (exec o self).
Proof.
  destruct o; simpl.
  - by repeat split.
  - apply step_same_config.
  - apply same_config_refl.
  - rewrite get_transition_matrix_fst. apply same_config_refl.
Qed.

(** C10: no call made on a constructed object ([reset], [step],
    [get_reward_per_action], [get_transition_matrix]) changes [P], the rewards
    table, the horizon or the cached tensor (or the spaces, index arrays and
    generator); [state] and [transition_count] are the only attributes a call
    can change, and the two derivation methods change none.  The same holds
    across any history of calls. *)
Theorem operations_frame (o : op) (self : MyEnv.t) :
  same_config self (exec o self)
  ∧ match o with
    | Reset | Step _ => True
    | GetRewardPerAction | GetTransitionMatrix _ _ _ => exec o self = self
    end
  ∧ ∀ history, same_config self (foldl (λ e o', exec o' e) self history).
Proof.
  split; [apply exec_same_config|]. split.
  - destruct o; simpl; auto using get_transition_matrix_fst.
  - intros history. revert self.
    induction history as [|o' history IH]; intros self; simpl.
    + apply same_config_refl.
    + eapply same_config_trans; [apply exec_same_config|apply IH].
Qed.

(** ** Loops *)

Section loops.
Context {A St : Type}.
Implicit Types (l : list A) (body : A → St → result St).

(** The loop rule: an invariant indexed by the elements already visited. *)
Lemma for_each_invariant (Inv : list A → St → Prop) body l st :
  Inv [] st →
  (∀ pre x st1, x ∈ l → Inv pre st1 →
     ∃ st2, body x st1 = Ok st2 ∧ Inv (pre ++ [x]) st2) →
  ∃ st', for_each l body st = Ok st' ∧ Inv l st'.
Proof.
  revert Inv st. induction l as [|x l IH]; intros Inv st H0 Hstep; simpl.
  - eauto.
  - destruct (Hstep [] x st) as (st2 & -> & H2); [left|done|].
    apply (IH (λ pre, Inv (x :: pre))); [done|].
    intros pre y st1 Hy HI. apply (Hstep (x :: pre)); [by right|done].
Qed.

(** A loop that ran to its end ran its body, successfully, on each element. *)
Lemma for_each_Ok_body body l st st' :
  for_each l body st = Ok st' →
  ∀ x, x ∈ l → ∃ st1 st2, body x st1 = Ok st2.
Proof.
  revert st. induction l as [|y l IH]; intros st Hrun x Hx.
  - by apply elem_of_nil in Hx.
  - simpl in Hrun. destruct (body y st) as [st1|] eqn:Hy; [|done].
    apply elem_of_cons in Hx as [->|Hx]; eauto.
Qed.
End loops.

(** The two nested loops over a grid of index pairs.  [I W st] reads: [st]
    is the array in which exactly the cells of [W] have been written. *)
Section grid.
Context {St : Type}.
Variable I : (Z → Z → Prop) → St → Prop.
Variable body : Z → Z → St → result St.
Variables rows cols : list Z.

Hypothesis I_ext : ∀ W W' st, (∀ i j, W i j ↔ W' i j) → I W st → I W' st.
Hypothesis body_writes : ∀ W s a st,
  s ∈ rows → a ∈ cols → I W st →
  ∃ st', body s a st = Ok st' ∧ I (λ i j, W i j ∨ (i = s ∧ j = a)) st'.

Lemma grid_loop st :
  I (λ _ _, False) st →
  ∃ st', for_each rows (λ s st1, for_each cols (λ a st2, body s a st2) st1) st
           = Ok st'
         ∧ I (λ i j, i ∈ rows ∧ j ∈ cols) st'.
Proof.
  intros H0.
  apply (for_each_invariant (λ pre, I (λ i j, i ∈ pre ∧ j ∈ cols))).
  { eapply I_ext; [|exact H0]. intros i j. rewrite elem_of_nil. tauto. }
  intros pre s st1 Hs Hpre.
  destruct (for_each_invariant
              (λ pa, I (λ i j, (i ∈ pre ∧ j ∈ cols) ∨ (i = s ∧ j ∈ pa)))
              (λ a st2, body s a st2) cols st1) as (st2 & Hrun & Hend).
  { eapply I_ext; [|exact Hpre]. intros i j. rewrite elem_of_nil. tauto. }
  { intros pa a st2 Ha Hpa.
    destruct (body_writes _ s a st2 Hs Ha Hpa) as (st3 & Hb & H3).
    exists st3. split; [done|]. eapply I_ext; [|exact H3].
    intros i j. simpl. rewrite elem_of_app, list_elem_of_singleton. tauto. }
  exists st2. split; [done|]. eapply I_ext; [|exact Hend].
  intros i j. simpl. rewrite elem_of_app, list_elem_of_singleton.
  split; [intros [[? ?] | [-> ?]]; auto | intros [[? | ->] ?]; auto].
Qed.
End grid.

(** ** Reading and writing cells *)

Lemma shape2_row {a b M i} :
  shape2 a b M → 0 ≤ i < a → Z.of_nat (length (M !!! Z.to_nat i)) = b.
Proof.
  intros [Hlen Hrows] Hi.
  apply (Forall_lookup_total_1 _ M (Z.to_nat i)) in Hrows; [done|lia].
Qed.

Lemma shape3_plane {a b c T i} :
  shape3 a b c T → 0 ≤ i < a → shape2 b c (T !!! Z.to_nat i).
Proof.
  intros [Hlen Hplanes] Hi.
  apply (Forall_lookup_total_1 _ T (Z.to_nat i)) in Hplanes; [done|lia].
Qed.

Lemma getitem2_cell {a b M i j} :
  shape2 a b M → 0 ≤ i < a → 0 ≤ j < b → getitem2 M i j = Ok (cell2 M i j).
Proof.
  intros HM Hi Hj. unfold getitem2, cell2.
  pose proof (shape2_row HM Hi) as Hrow. destruct HM as [Hlen _].
  rewrite getitem_in_range by lia. simpl.
  by rewrite getitem_in_range by lia.
Qed.

Lemma getitem3_cell {a b c T i j k} :
  shape3 a b c T → 0 ≤ i < a → 0 ≤ j < b → 0 ≤ k < c →
  getitem3 T i j k = Ok (cell3 T i j k).
Proof.
  intros HT Hi Hj Hk. unfold getitem3, cell3.
  pose proof (shape3_plane HT Hi) as Hplane. destruct HT as [Hlen _].
  rewrite getitem_in_range by lia. simpl.
  apply (getitem2_cell Hplane Hj Hk).
Qed.

Lemma setitem2_spec {a b M i j} x :
  shape2 a b M → 0 ≤ i < a → 0 ≤ j < b →
  ∃ M', setitem2 M i j x = Ok M' ∧ shape2 a b M'
        ∧ ∀ i' j', 0 ≤ i' → 0 ≤ j' →
            cell2 M' i' j' = if decide (i' = i ∧ j' = j) then x
                             else cell2 M i' j'.
Proof.
  intros HM Hi Hj. pose proof (shape2_row HM Hi) as Hrow.
  destruct HM as [Hlen Hrows].
  exists (<[Z.to_nat i := <[Z.to_nat j := x]> (M !!! Z.to_nat i)]> M).
  split; [|split].
  - unfold setitem2. rewrite getitem_in_range by lia. simpl.
    rewrite setitem_in_range by lia. simpl.
    by rewrite setitem_in_range by lia.
  - split; [by rewrite length_insert|].
    apply Forall_insert; [done|]. by rewrite length_insert.
  - intros i' j' Hi' Hj'. unfold cell2.
    destruct (decide (i' = i ∧ j' = j)) as [[-> ->]|Hne].
    + by rewrite !list_lookup_total_insert_eq by (rewrite ?length_insert; lia).
    + destruct (decide (i' = i)) as [->|Hother].
      * rewrite list_lookup_total_insert_eq by lia.
        rewrite list_lookup_total_insert_ne; [done|].
        intros Heq. apply Hne. split; [done|lia].
      * rewrite list_lookup_total_insert_ne; [done|lia].
Qed.

Lemma setitem3_spec {a b c T i j k} x :
  shape3 a b c T → 0 ≤ i < a → 0 ≤ j < b → 0 ≤ k < c →
  ∃ T', setitem3 T i j k x = Ok T' ∧ shape3 a b c T'
        ∧ ∀ i' j' k', 0 ≤ i' → 0 ≤ j' → 0 ≤ k' →
            cell3 T' i' j' k' = if decide (i' = i ∧ j' = j ∧ k' = k) then x
                                else cell3 T i' j' k'.
Proof.
  intros HT Hi Hj Hk. pose proof (shape3_plane HT Hi) as Hplane.
  destruct (setitem2_spec x Hplane Hj Hk) as (M' & Hset & HM' & Hcells).
  destruct HT as [Hlen Hplanes].
  exists (<[Z.to_nat i := M']> T). split; [|split].
  - unfold setitem3, setitem2 in *. rewrite getitem_in_range by lia. simpl.
    destruct (getitem (T !!! Z.to_nat i) j) as [row|]; [simpl in *|done].
    destruct (setitem row k x) as [row'|]; [simpl in *|done].
    rewrite Hset. simpl. by rewrite setitem_in_range by lia.
  - split; [by rewrite length_insert|]. by apply Forall_insert.
  - intros i' j' k' Hi' Hj' Hk'. unfold cell3.
    destruct (decide (i' = i)) as [->|Hother].
    + rewrite list_lookup_total_insert_eq by lia. rewrite Hcells by done.
      destruct (decide (j' = j ∧ k' = k)) as [[-> ->]|Hne].
      * by rewrite decide_True.
      * by rewrite decide_False by tauto.
    + rewrite list_lookup_total_insert_ne by lia.
      by rewrite decide_False by tauto.
Qed.

Lemma zeros2_spec a b :
  0 ≤ a → 0 ≤ b →
  ∃ M, zeros2 a b = Ok M ∧ shape2 a b M
       ∧ ∀ i j, 0 ≤ i < a → 0 ≤ j < b → cell2 M i j = 0%float.
Proof.
  intros Ha Hb. eexists. split; [|split].
  - unfold zeros2.
    destruct (Z.ltb_spec a 0), (Z.ltb_spec b 0); simpl; try lia. reflexivity.
  - split; [rewrite length_replicate; lia|].
    apply Forall_replicate. rewrite length_replicate. lia.
  - intros i j Hi Hj. unfold cell2.
    by rewrite !lookup_total_replicate_2 by lia.
Qed.

Lemma zeros3_spec a b c :
  0 ≤ a → 0 ≤ b → 0 ≤ c →
  ∃ T, zeros3 a b c = Ok T ∧ shape3 a b c T
       ∧ ∀ i j k, 0 ≤ i < a → 0 ≤ j < b → 0 ≤ k < c →
           cell3 T i j k = 0%float.
Proof.
  intros Ha Hb Hc. eexists. split; [|split].
  - unfold zeros3.
    destruct (Z.ltb_spec a 0), (Z.ltb_spec b 0), (Z.ltb_spec c 0);
      simpl; try lia. reflexivity.
  - split; [rewrite length_replicate; lia|].
    apply Forall_replicate. split; [rewrite length_replicate; lia|].
    apply Forall_replicate. rewrite length_replicate. lia.
  - intros i j k Hi Hj Hk. unfold cell3, cell2.
    by rewrite !lookup_total_replicate_2 by lia.
Qed.

(** ** The transition tensor *)

Lemma get_transition_matrix_explicit S0 A0 P0 self :
  MyEnv.get_transition_matrix (Some S0) (Some A0) (Some P0) self
  = (self, transition_tensor S0 A0 P0).
Proof. reflexivity. Qed.

(** As soon as one argument is left out, all three are the object's own. *)
Lemma get_transition_matrix_fallback S_arg A_arg P_arg self :
  S_arg = None ∨ A_arg = None ∨ P_arg = None →
  MyEnv.get_transition_matrix S_arg A_arg P_arg self
  = (self, transition_tensor (MyEnv.states self) (MyEnv.actions self)
             (MyEnv.P self)).
Proof. destruct S_arg, A_arg, P_arg; intros [?|[?|?]]; done. Qed.

Lemma tensor_inv_ext nS nA P0 W W' T :
  (∀ i j, W i j ↔ W' i j) → tensor_inv nS nA P0 W T → tensor_inv nS nA P0 W' T.
Proof.
  intros Hext [Hshape Hcells]. split; [done|].
  intros i j k Hi Hj Hk. destruct (Hcells i j k Hi Hj Hk) as [Hw Hn].
  split; intros H; [apply Hw|apply Hn]; by rewrite Hext.
Qed.

Lemma tensor_body_writes nS nA P0 W s a T :
  0 ≤ s < nS → 0 ≤ a < nA → returns (getitem2 P0 s a) →
  tensor_inv nS nA P0 W T →
  ∃ T', (p ← getitem2 P0 s a; setitem3 T s a (MyEnv.move nS s a) p) = Ok T'
        ∧ tensor_inv nS nA P0 (λ i j, W i j ∨ (i = s ∧ j = a)) T'.
Proof.
  intros Hs Ha [p Hp] [Hshape Hcells]. rewrite Hp. simpl.
  assert (0 ≤ MyEnv.move nS s a < nS) as Hm.
  { rewrite move_successor by lia.
    pose proof (successor_range (n:=nS) s a). lia. }
  destruct (setitem3_spec p Hshape Hs Ha Hm) as (T' & -> & Hshape' & Hnew).
  exists T'. split; [done|]. split; [done|].
  intros i j k Hi Hj Hk. rewrite Hnew by lia.
  destruct (Hcells i j k Hi Hj Hk) as [Hw Hn].
  case_decide as Heq.
  - destruct Heq as (-> & -> & ->). split; [done|].
    intros Hneg. exfalso. apply Hneg. auto.
  - split.
    + intros [[HW|[Hi' Hj']] Hk']; [by apply Hw|].
      exfalso. apply Heq. by subst.
    + intros Hneg. apply Hn. intros [HW Hk']. apply Hneg. auto.
Qed.

Lemma transition_tensor_spec_gen S0 A0 P0 :
  let nS := Z.of_nat (length S0) in
  let nA := Z.of_nat (length A0) in
  (∀ s, s ∈ S0 → 0 ≤ s < nS) →
  (∀ a, a ∈ A0 → 0 ≤ a < nA) →
  (∀ s a, s ∈ S0 → a ∈ A0 → returns (getitem2 P0 s a)) →
  ∃ T, transition_tensor S0 A0 P0 = Ok T
       ∧ tensor_inv nS nA P0 (λ i j, i ∈ S0 ∧ j ∈ A0) T.
Proof.
  intros nS nA HS HA HP. unfold transition_tensor. fold nS nA.
  destruct (zeros3_spec nS nA nS) as (T0 & -> & Hshape & Hzero); [lia..|].
  simpl.
  apply (grid_loop (tensor_inv nS nA P0)
           (λ s a T, p ← getitem2 P0 s a; setitem3 T s a (MyEnv.move nS s a) p)).
  - apply tensor_inv_ext.
  - intros W s a T Hs Ha HI. apply tensor_body_writes; auto.
  - split; [done|]. intros i j k Hi Hj Hk. split; [tauto|auto].
Qed.

(** A tensor that was built had every [P0[s, a]] it needed. *)
Lemma transition_tensor_Ok_defined S0 A0 P0 T :
  transition_tensor S0 A0 P0 = Ok T →
  ∀ s a, s ∈ S0 → a ∈ A0 → returns (getitem2 P0 s a).
Proof.
  unfold transition_tensor. destruct (zeros3 _ _ _) as [T0|]; [simpl|done].
  intros Hrun s a Hs Ha.
  destruct (for_each_Ok_body _ _ _ _ Hrun s Hs) as (T1 & T2 & Hrow).
  destruct (for_each_Ok_body _ _ _ _ Hrow a Ha) as (T3 & T4 & Hcell).
  simpl in Hcell. destruct (getitem2 P0 s a) as [p|]; [by exists p|done].
Qed.

(** ** Instances *)

(** [__init__], statement by statement: the generator, the array, the two
    spaces, the tensor. *)
Lemma init_equation tp h r seed :
  let n := Z.of_nat (length tp) in
  MyEnv.__init__ tp h r seed
  = if valid_seed seed then
      if rectangular tp then
        if 0 <? n then
          T0 ← transition_tensor (arange n) (arange n) tp;
          Ok (MyEnv.Build seed tp r h 0 (Discrete.Build n) (Discrete.Build n)
                (arange n) (arange n) (Some T0) (Some T0) None)
        else Raise AssertionError
      else Raise ValueError
    else Raise ValueError.
Proof.
  intros n. unfold MyEnv.__init__, default_rng, np_array, Discrete.make.
  destruct (valid_seed seed); [simpl|done].
  destruct (rectangular tp); [simpl|done].
  fold n. by destruct (0 <? n).
Qed.

Lemma init_Ok tp h r seed self :
  MyEnv.__init__ tp h r seed = Ok self →
  let n := Z.of_nat (length tp) in
  1 ≤ n
  ∧ ∃ T0, transition_tensor (arange n) (arange n) tp = Ok T0
          ∧ self = MyEnv.Build seed tp r h 0 (Discrete.Build n)
                     (Discrete.Build n) (arange n) (arange n)
                     (Some T0) (Some T0) None.
Proof.
  intros Hinit n. rewrite init_equation in Hinit. fold n in Hinit.
  destruct (valid_seed seed); [|done]. destruct (rectangular tp); [|done].
  destruct (Z.ltb_spec 0 n) as [Hn|]; [|done].
  destruct (transition_tensor (arange n) (arange n) tp) as [T0|] eqn:HT;
    simpl in Hinit; [|done].
  injection Hinit as <-. split; [lia|]. by exists T0.
Qed.

Lemma elem_of_arange n k : k ∈ arange n ↔ 0 ≤ k < n.
Proof. unfold arange. rewrite elem_of_seqZ. lia. Qed.

Lemma length_arange n : 0 ≤ n → Z.of_nat (length (arange n)) = n.
Proof. intros Hn. unfold arange. rewrite length_seqZ. lia. Qed.

Lemma init_well_formed tp h r seed self :
  MyEnv.__init__ tp h r seed = Ok self → well_formed self.
Proof.
  intros (Hn & T0 & HT & ->)%init_Ok. unfold well_formed, num_states. simpl.
  repeat split; try done; try lia.
  - intros s a Hs Ha.
    apply (transition_tensor_Ok_defined _ _ _ _ HT); by apply elem_of_arange.
  - by exists T0.
Qed.

Lemma exec_state_range o self :
  1 ≤ num_states self →
  0 ≤ MyEnv.state self ≤ num_states self - 1 →
  0 ≤ MyEnv.state (exec o self) ≤ num_states self - 1.
Proof.
  intros Hn Hstate. destruct o; simpl; [lia| |done|].
  - destruct (Discrete.contains (MyEnv.action_space self) action) eqn:Hv.
    + destruct (step_valid self action Hv) as [-> _]. simpl.
      rewrite move_successor by done. apply (successor_range _ _ Hn).
    + by rewrite (step_invalid self action Hv).
  - by rewrite get_transition_matrix_fst.
Qed.

Lemma exec_well_formed o self : well_formed self → well_formed (exec o self).
Proof.
  intros Hwf. pose proof (exec_same_config o self) as Hsame.
  destruct Hsame as (_ & HP & _ & _ & Hobs & Hact & HS & HA & HTM & HT).
  destruct Hwf as (Hn & Hlen & Hactn & Hstates & Hactions & Hdef & Hstate & HT0).
  pose proof (exec_state_range o self Hn Hstate) as Hstate'.
  unfold well_formed, num_states in *. rewrite HP, Hobs, Hact, HS, HA, HTM, HT.
  repeat split; try done; lia.
Qed.

Lemma instance_well_formed self : instance self → well_formed self.
Proof.
  induction 1; eauto using init_well_formed, exec_well_formed.
Qed.

Lemma default_env_instance : instance default_env.
Proof. by apply (instance_init (ones2 2 2) 10 [0; 1]%float None). Qed.

(** The entries of the tensor an instance computes from its own fields. *)
Lemma instance_tensor self :
  instance self →
  let n := num_states self in
  ∃ T, transition_tensor (MyEnv.states self) (MyEnv.actions self)
         (MyEnv.P self) = Ok T
       ∧ MyEnv.T self = Some T
       ∧ MyEnv.transition_matrix self = Some T
       ∧ shape3 n n n T
       ∧ ∀ s a, 0 ≤ s < n → 0 ≤ a < n →
           ∃ p, getitem2 (MyEnv.P self) s a = Ok p
                ∧ ∀ s', 0 ≤ s' < n →
                    getitem3 T s a s'
                    = Ok (if decide (s' = successor n s a) then p else 0%float).
Proof.
  intros Hinst n.
  destruct (instance_well_formed self Hinst)
    as (Hn & Hlen & Hactn & HS & HA & Hdef & Hst & T & HT & HTM & Hrun).
  fold n in Hn, HS, HA, Hdef.
  exists T. do 3 (split; [done|]).
  destruct (transition_tensor_spec_gen (MyEnv.states self)
              (MyEnv.actions self) (MyEnv.P self))
    as (T' & Hrun' & Hshape & Hcells).
  - rewrite HS. intros s Hs%elem_of_arange. rewrite length_arange; lia.
  - rewrite HA. intros a Ha%elem_of_arange. rewrite length_arange; lia.
  - rewrite HS, HA. intros s a Hs%elem_of_arange Ha%elem_of_arange. auto.
  - rewrite Hrun in Hrun'. injection Hrun' as <-.
    rewrite HS, HA in Hshape, Hcells.
    rewrite !length_arange in Hshape, Hcells by lia.
    split; [done|]. intros s a Hs Ha.
    destruct (Hdef s a Hs Ha) as [p Hp]. exists p. split; [done|].
    intros s' Hs'. rewrite (getitem3_cell Hshape Hs Ha Hs'). f_equal.
    destruct (Hcells s a s' Hs Ha Hs') as [Hw Hnw].
    rewrite move_successor in Hw, Hnw by done.
    case_decide as Heq.
    + rewrite Hw in Hp; [congruence|]. by rewrite !elem_of_arange.
    + apply Hnw. tauto.
Qed.

Lemma nonzero_zero : nonzero 0%float = false.
Proof. reflexivity. Qed.

(** C3, as amended: on every instance, [get_transition_matrix()] returns an
    [n × n × n] tensor [T] (the one cached at construction) with
    [T[s, a, s'] = P[s, a]] at [s' = successor(s, a)] and [0] everywhere
    else.  So [T[s, a, s']] is non-zero exactly when [s'] is the successor
    and [P[s, a]] is itself non-zero: a row [T[s, a, :]] has at most one
    non-zero entry, one when [P[s, a]] is non-zero and none when it is 0. *)
Theorem transition_tensor_entries (self : MyEnv.t) :
  instance self →
  let n := num_states self in
  ∃ T, MyEnv.get_transition_matrix None None None self = (self, Ok T)
       ∧ MyEnv.T self = Some T
       ∧ shape3 n n n T
       ∧ ∀ s a, 0 ≤ s < n → 0 ≤ a < n →
           ∃ p, getitem2 (MyEnv.P self) s a = Ok p
                ∧ 0 ≤ successor n s a < n
                ∧ getitem3 T s a (successor n s a) = Ok p
                ∧ (∀ s', 0 ≤ s' < n → s' ≠ successor n s a →
                     getitem3 T s a s' = Ok 0%float)
                ∧ (∀ s', 0 ≤ s' < n →
                     ∃ v, getitem3 T s a s' = Ok v
                          ∧ (nonzero v = true
                             ↔ s' = successor n s a ∧ nonzero p = true))
                ∧ (nonzero p = false →
                     ∀ s', 0 ≤ s' < n →
                       ∃ v, getitem3 T s a s' = Ok v ∧ nonzero v = false)
                ∧ (∀ s1 s2 v1 v2, 0 ≤ s1 < n → 0 ≤ s2 < n →
                     getitem3 T s a s1 = Ok v1 → nonzero v1 = true →
                     getitem3 T s a s2 = Ok v2 → nonzero v2 = true →
                     s1 = s2).
Proof.
  intros Hinst n.
  destruct (instance_tensor self Hinst) as (T & Hrun & HT & _ & Hshape & Hcells).
  fold n in Hshape, Hcells.
  assert (1 ≤ n) as Hn by apply (instance_well_formed self Hinst).
  exists T. split; [by rewrite get_transition_matrix_fallback, Hrun by auto|].
  do 2 (split; [done|]). intros s a Hs Ha.
  destruct (Hcells s a Hs Ha) as (p & Hp & Hrow). exists p.
  pose proof (successor_range (n:=n) s a Hn) as Hsucc.
  assert (∀ s' v, 0 ≤ s' < n → getitem3 T s a s' = Ok v →
            nonzero v = true → s' = successor n s a) as Hunique.
  { intros s' v Hs' Hv Hnz. rewrite Hrow in Hv by done.
    case_decide; [done|]. injection Hv as <-. by rewrite nonzero_zero in Hnz. }
  split; [done|]. split; [lia|]. split; [|split; [|split; [|split]]].
  - rewrite Hrow by lia. by rewrite decide_True.
  - intros s' Hs' Hne. rewrite Hrow by lia. by rewrite decide_False.
  - intros s' Hs'. eexists. split; [by apply Hrow|].
    case_decide as Heq; [tauto|]. rewrite nonzero_zero. split; [done|tauto].
  - intros Hzero s' Hs'. eexists. split; [by apply Hrow|].
    case_decide; [done|apply nonzero_zero].
  - intros s1 s2 v1 v2 Hs1 Hs2 Hv1 Hn1 Hv2 Hn2.
    rewrite (Hunique s1 v1), (Hunique s2 v2); done.
Qed.

Lemma transition_tensor_entries_witness :
  ∃ T, MyEnv.get_transition_matrix None None None default_env
       = (default_env, Ok T)
       ∧ MyEnv.T default_env = Some T
       ∧ getitem3 T 1 0 (successor 2 1 0) = Ok 1%float
       ∧ getitem3 T 1 0 1 = Ok 0%float.
Proof.
  destruct (transition_tensor_entries default_env default_env_instance)
    as (T & Hrun & HT & _ & Hcells).
  exists T. split; [exact Hrun|]. split; [exact HT|].
  destruct (Hcells 1 0) as (p & Hp & _ & Hsucc & Hother & _ & _ & _);
    [unfold num_states; simpl; lia..|].
  injection Hp as <-. split; [exact Hsucc|].
  apply Hother; [unfold num_states; simpl; lia|discriminate].
Defined.

(** C3, as stated, fails: with [P[0, 1] = 0] the entry of [T[0, 1, :]] at the
    successor of [(0, 1)] is zero, and the row has no non-zero entry. *)
Lemma zero_probability_row_is_zero :
  MyEnv.__init__ [[1; 0]; [0; 1]]%float 10 [0; 1]%float None = Ok identity_env
  ∧ snd (MyEnv.get_transition_matrix None None None identity_env)
    = Ok [[[1; 0]; [0; 0]]; [[0; 0]; [0; 1]]]%float
  ∧ successor 2 0 1 = 1
  ∧ getitem3 [[[1; 0]; [0; 0]]; [[0; 0]; [0; 1]]]%float 0 1 (successor 2 0 1)
    = Ok 0%float
  ∧ nonzero 0%float = false
  ∧ getitem ([[[1; 0]; [0; 0]]; [[0; 0]; [0; 1]]]%float !!! 0%nat) 1
    = Ok [0; 0]%float
  ∧ filter (λ x, nonzero x = true) [0; 0]%float = [].
Proof. repeat split. Qed.

(** ** The reward table *)

Lemma reward_inv_ext nS nA rewards W W' R :
  (∀ i j, W i j ↔ W' i j) →
  reward_inv nS nA rewards W R → reward_inv nS nA rewards W' R.
Proof.
  intros Hext [Hshape Hcells]. split; [done|].
  intros i j Hi Hj. destruct (Hcells i j Hi Hj) as [Hw Hn].
  split; intros H; [apply Hw|apply Hn]; by rewrite Hext.
Qed.

Lemma reward_body_writes nS nA rewards W s a R :
  0 ≤ s < nS → 0 ≤ a < nA → nS ≤ Z.of_nat (length rewards) →
  reward_inv nS nA rewards W R →
  ∃ R', (r ← getitem rewards (MyEnv.move nS s a); setitem2 R s a r) = Ok R'
        ∧ reward_inv nS nA rewards (λ i j, W i j ∨ (i = s ∧ j = a)) R'.
Proof.
  intros Hs Ha Hlen [Hshape Hcells].
  destruct (getitem_returns rewards (MyEnv.move nS s a)) as [r Hr].
  { rewrite move_successor by lia.
    pose proof (successor_range (n:=nS) s a). lia. }
  rewrite Hr. simpl.
  destruct (setitem2_spec r Hshape Hs Ha) as (R' & -> & Hshape' & Hnew).
  exists R'. split; [done|]. split; [done|].
  intros i j Hi Hj. rewrite Hnew by lia.
  destruct (Hcells i j Hi Hj) as [Hw Hn].
  case_decide as Heq.
  - destruct Heq as (-> & ->). split; [done|].
    intros Hneg. exfalso. apply Hneg. auto.
  - split.
    + intros [HW|[Hi' Hj']]; [by apply Hw|]. exfalso. by apply Heq.
    + intros Hneg. apply Hn. intros HW. apply Hneg. auto.
Qed.

Lemma get_reward_per_action_spec_gen self :
  let nS := Discrete.n (MyEnv.observation_space self) in
  let nA := Discrete.n (MyEnv.action_space self) in
  0 ≤ nS → 0 ≤ nA → nS ≤ Z.of_nat (length (MyEnv.rewards self)) →
  ∃ R, MyEnv.get_reward_per_action self = (self, Ok R)
       ∧ reward_inv nS nA (MyEnv.rewards self)
           (λ i j, i ∈ arange nS ∧ j ∈ arange nA) R.
Proof.
  intros nS nA HnS HnA Hlen. unfold MyEnv.get_reward_per_action. fold nS nA.
  destruct (zeros2_spec nS nA) as (R0 & -> & Hshape & Hzero); [lia..|].
  simpl.
  destruct (grid_loop (reward_inv nS nA (MyEnv.rewards self))
              (λ s a R, r ← getitem (MyEnv.rewards self) (MyEnv.move nS s a);
                        setitem2 R s a r)
              (arange nS) (arange nA)) with (st := R0) as (R & Hrun & HR).
  - apply reward_inv_ext.
  - intros W s a R Hs%elem_of_arange Ha%elem_of_arange HI.
    by apply reward_body_writes.
  - split; [done|]. intros i j Hi Hj. split; [tauto|auto].
  - exists R. split; [|done]. f_equal. exact Hrun.
Qed.

(** C8: on an instance whose rewards table has at least [n] entries,
    [get_reward_per_action()] returns an [n × n] array [R] with
    [R[s, a] = rewards[successor(s, a)]], the successor being the clamped
    move that [step] makes from [s] on [a]; the object is left as it was. *)
Theorem reward_per_action_entries (self : MyEnv.t) :
  instance self →
  let n := num_states self in
  n ≤ Z.of_nat (length (MyEnv.rewards self)) →
  ∃ R, MyEnv.get_reward_per_action self = (self, Ok R)
       ∧ shape2 n n R
       ∧ ∀ s a, 0 ≤ s < n → 0 ≤ a < n →
           ∃ r, getitem (MyEnv.rewards self) (successor n s a) = Ok r
                ∧ getitem2 R s a = Ok r
                ∧ (MyEnv.state self = s →
                   MyEnv.state (fst (MyEnv.step a self)) = successor n s a).
Proof.
  intros Hinst n Hlen.
  destruct (instance_well_formed self Hinst) as (Hn & _ & Hactn & _).
  fold n in Hn, Hactn.
  destruct (get_reward_per_action_spec_gen self) as (R & Hrun & Hshape & Hcells).
  { fold (num_states self). lia. }
  { lia. }
  { done. }
  fold (num_states self) in Hshape, Hcells. fold n in Hshape, Hcells.
  rewrite Hactn in Hshape, Hcells.
  exists R. do 2 (split; [done|]). intros s a Hs Ha.
  destruct (Hcells s a Hs Ha) as [Hw _].
  rewrite move_successor in Hw by done.
  exists (cell2 R s a). split; [|split].
  - apply Hw. by rewrite !elem_of_arange.
  - by apply (getitem2_cell Hshape).
  - intros Hstate.
    assert (Discrete.contains (MyEnv.action_space self) a = true) as Hvalid.
    { apply contains_range. lia. }
    destruct (step_valid self a Hvalid) as [-> _]. simpl.
    fold n. rewrite Hstate. by apply move_successor.
Qed.

Lemma reward_per_action_entries_witness :
  ∃ R, MyEnv.get_reward_per_action default_env = (default_env, Ok R)
       ∧ getitem2 R 0 0 = Ok 0%float ∧ getitem2 R 0 1 = Ok 1%float
       ∧ getitem2 R 1 0 = Ok 0%float ∧ getitem2 R 1 1 = Ok 1%float.
Proof.
  destruct (reward_per_action_entries default_env default_env_instance)
    as (R & Hrun & _ & Hcells); [unfold num_states; simpl; lia|].
  exists R. split; [exact Hrun|].
  assert (∀ s a, 0 ≤ s < 2 → 0 ≤ a < 2 →
            ∃ r, getitem [0; 1]%float (successor 2 s a) = Ok r
                 ∧ getitem2 R s a = Ok r) as Hcell.
  { intros s a Hs Ha. destruct (Hcells s a Hs Ha) as (r & Hr & HR & _).
    by exists r. }
  destruct (Hcell 0 0) as (r00 & [= <-] & H00); [lia..|].
  destruct (Hcell 0 1) as (r01 & [= <-] & H01); [lia..|].
  destruct (Hcell 1 0) as (r10 & [= <-] & H10); [lia..|].
  destruct (Hcell 1 1) as (r11 & [= <-] & H11); [lia..|].
  auto.
Defined.

(** ** Where the code departs from its documentation *)

(** [__init__] binds [state] but not [transition_count], so no [step] on a
    fresh object returns: the counter is read, unbound, after the move. *)
Lemma init_counter_unbound tp h r seed self :
  MyEnv.__init__ tp h r seed = Ok self →
  MyEnv.state self = 0
  ∧ MyEnv.transition_count self = None
  ∧ ∀ action, ¬ returns (snd (MyEnv.step action self)).
Proof.
  intros (_ & T0 & _ & ->)%init_Ok. do 2 (split; [done|]).
  intros action [out (_ & c & Hc & _)%step_Ok]. done.
Qed.

(** C6 (the code departs from the claim): [MyEnv()] has [state = 0] but no
    [transition_count]; [step] on it, before any [reset], moves [state] and
    then raises [AttributeError] where it compares the counter with the
    horizon. *)
Theorem fresh_instance_step_raises :
  MyEnv.default = Ok default_env
  ∧ MyEnv.state default_env = 0
  ∧ MyEnv.transition_count default_env = None
  ∧ MyEnv.step 1 default_env
    = (MyEnv.set_state 1 default_env, Raise AttributeError)
  ∧ MyEnv.step 0 default_env
    = (MyEnv.set_state 0 default_env, Raise AttributeError).
Proof. repeat split. Qed.

(** C4 (the code departs from the claim): on [MyEnv()], whose [P] is all
    ones, [get_transition_matrix(P=halves)] returns the tensor of the
    object's own [P]; the matrix passed in is used only when [S] and [A] are
    passed too. *)
Theorem explicit_P_alone_is_ignored :
  snd (MyEnv.get_transition_matrix None None (Some halves) default_env)
  = Ok [[[1; 0]; [0; 1]]; [[1; 0]; [0; 1]]]%float
  ∧ snd (MyEnv.get_transition_matrix None None (Some halves) default_env)
    = snd (MyEnv.get_transition_matrix None None None default_env)
  ∧ snd (MyEnv.get_transition_matrix (Some [0; 1]) (Some [0; 1]) (Some halves)
           default_env)
    = Ok [[[0.5; 0]; [0; 0.5]]; [[0.5; 0]; [0; 0.5]]]%float
  ∧ PrimFloat.eqb 1 0.5 = false.
Proof. repeat split. Qed.

(** * Further properties *)

(** ** Outcomes of [step] *)

Lemma getitem_Ok_bound {A} (l : list A) i x :
  0 ≤ i → getitem l i = Ok x → i < Z.of_nat (length l).
Proof.
  unfold getitem, norm_index. intros Hi.
  destruct (Z.leb_spec 0 i); [|lia].
  destruct (Z.ltb_spec i (Z.of_nat (length l))); simpl; [lia|].
  destruct (Z.leb_spec (- Z.of_nat (length l)) i), (Z.ltb_spec i 0);
    simpl; try discriminate; lia.
Qed.

Lemma getitem_out_of_bounds {A} (l : list A) i :
  Z.of_nat (length l) ≤ i → getitem l i = Raise IndexError.
Proof.
  intros Hi. destruct (getitem l i) as [x|e] eqn:Hget.
  - apply getitem_Ok_bound in Hget; lia.
  - by apply getitem_Raise in Hget as ->.
Qed.

Lemma move_nonneg nS s a : 0 ≤ MyEnv.move nS s a.
Proof. unfold MyEnv.move. lia. Qed.

(** X3: a [step] with a valid action assigns the new state before it reads
    the rewards table: it raises [IndexError] exactly when the table has no
    entry at the new state, and the object has been moved there all the
    same; the counter is never touched. *)
Theorem step_moves_before_it_fails (self : MyEnv.t) (action : Z) :
  Discrete.contains (MyEnv.action_space self) action = true →
  let next := MyEnv.move (num_states self) (MyEnv.state self) action in
  MyEnv.state (fst (MyEnv.step action self)) = next
  ∧ (snd (MyEnv.step action self) = Raise IndexError
     ↔ Z.of_nat (length (MyEnv.rewards self)) ≤ next)
  ∧ (snd (MyEnv.step action self) = Raise AttributeError
     ↔ next < Z.of_nat (length (MyEnv.rewards self))
       ∧ MyEnv.transition_count self = None)
  ∧ MyEnv.transition_count (fst (MyEnv.step action self))
    = MyEnv.transition_count self.
Proof.
  intros Hvalid next. destruct (step_valid self action Hvalid) as [Hfst Hsnd].
  simpl in Hsnd. fold next in Hsnd.
  pose proof (move_nonneg (num_states self) (MyEnv.state self) action) as Hnn.
  fold next in Hnn.
  split; [by rewrite Hfst|]. split; [|split; [|apply step_transition_count]].
  - destruct (getitem (MyEnv.rewards self) next) as [r|e] eqn:Hget.
    + apply getitem_Ok_bound in Hget; [|done].
      split; [|lia]. destruct (MyEnv.transition_count self); by rewrite Hsnd.
    + apply getitem_Raise in Hget as He. subst e. split; [|done].
      intros _. destruct (Z.le_gt_cases
                            (Z.of_nat (length (MyEnv.rewards self))) next)
        as [|Hlt]; [done|].
      destruct (getitem_returns (MyEnv.rewards self) next) as [r Hr]; [lia|].
      congruence.
  - destruct (getitem (MyEnv.rewards self) next) as [r|e] eqn:Hget.
    + apply getitem_Ok_bound in Hget; [|done].
      destruct (MyEnv.transition_count self) as [c|]; rewrite Hsnd.
      * split; [done|]. by intros [_ ?].
      * done.
    + apply getitem_Raise in Hget as He. subst e. rewrite Hsnd.
      split; [done|]. intros [Hlt _].
      destruct (getitem_returns (MyEnv.rewards self) next) as [r Hr]; [lia|].
      congruence.
Qed.

Lemma step_moves_before_it_fails_witness :
  MyEnv.state (fst (MyEnv.step 1 default_env)) = 1
  ∧ snd (MyEnv.step 1 default_env) = Raise AttributeError.
Proof.
  destruct (step_moves_before_it_fails default_env 1) as (Hs & _ & [_ Ha] & _);
    [reflexivity|].
  split; [exact Hs|]. apply Ha. split; [reflexivity|reflexivity].
Defined.

(** X4: [step] returns exactly when the action is in the action space, the
    rewards table has an entry at the state it moves to, and [reset] has
    bound the counter. *)
Theorem step_returns_iff (self : MyEnv.t) (action : Z) :
  returns (snd (MyEnv.step action self))
  ↔ Discrete.contains (MyEnv.action_space self) action = true
    ∧ MyEnv.move (num_states self) (MyEnv.state self) action
      < Z.of_nat (length (MyEnv.rewards self))
    ∧ is_Some (MyEnv.transition_count self).
Proof.
  pose proof (move_nonneg (num_states self) (MyEnv.state self) action) as Hnn.
  split.
  - intros [out (Hvalid & c & Hc & Hget & _)%step_Ok].
    split; [done|]. split; [|by exists c].
    by apply getitem_Ok_bound in Hget.
  - intros (Hvalid & Hlt & [c Hc]).
    destruct (step_valid self action Hvalid) as [_ Hsnd]. simpl in Hsnd.
    destruct (getitem_returns (MyEnv.rewards self)
                (MyEnv.move (num_states self) (MyEnv.state self) action))
      as [r Hr]; [lia|].
    rewrite Hr, Hc in Hsnd. by eexists.
Qed.

(** ** Walks *)

Lemma steps_cons_fst a acts self :
  fst (steps (a :: acts) self) = fst (steps acts (fst (MyEnv.step a self))).
Proof.
  simpl. destruct (MyEnv.step a self) as [self1 r]. simpl.
  by destruct (steps acts self1).
Qed.

(** Where a run of valid actions leaves the object, whether or not the
    calls returned. *)
Lemma steps_state acts : ∀ self,
  Forall (λ a, Discrete.contains (MyEnv.action_space self) a = true) acts →
  MyEnv.state (fst (steps acts self))
  = foldl (λ s a, MyEnv.move (num_states self) s a) (MyEnv.state self) acts.
Proof.
  induction acts as [|a acts IH]; intros self Hvalid; [done|].
  inversion Hvalid as [|? ? Ha Hacts]; subst.
  rewrite steps_cons_fst. simpl.
  pose proof (step_same_config self a) as (_ & _ & _ & _ & Hobs & Hact & _).
  destruct (step_valid self a Ha) as [Hfst _].
  rewrite IH by by rewrite Hact.
  unfold num_states. rewrite Hobs. fold (num_states self).
  by rewrite Hfst at 1.
Qed.

Lemma left_walk n k : ∀ s,
  1 ≤ n → 0 ≤ s ≤ n - 1 →
  foldl (λ s a, MyEnv.move n s a) s (replicate k 0) = Z.max 0 (s - Z.of_nat k).
Proof.
  induction k as [|k IH]; intros s Hn Hs; simpl; [lia|].
  rewrite IH; unfold MyEnv.move; simpl; lia.
Qed.

Lemma right_walk n acts : ∀ s,
  1 ≤ n → 0 ≤ s ≤ n - 1 → Forall (λ a, a ≠ 0) acts →
  foldl (λ s a, MyEnv.move n s a) s acts
  = Z.min (n - 1) (s + Z.of_nat (length acts)).
Proof.
  induction acts as [|a acts IH]; intros s Hn Hs Hacts; simpl; [lia|].
  inversion Hacts as [|? ? Ha Hrest]; subst.
  assert (MyEnv.move n s a = Z.min (n - 1) (s + 1)) as ->.
  { unfold MyEnv.move. destruct (Z.eqb_spec a 0); lia. }
  rewrite IH by (done || lia). lia.
Qed.

Lemma line3_env_instance : instance line3_env.
Proof.
  by apply (instance_init (ones2 3 3) 5 [0; 0.5; 1]%float None).
Qed.

Lemma steps_instance acts : ∀ self,
  instance self → instance (fst (steps acts self)).
Proof.
  induction acts as [|a acts IH]; intros self Hinst; [done|].
  rewrite steps_cons_fst. apply IH. apply (instance_exec (Step a)), Hinst.
Qed.

Lemma instance_valid_action self a :
  instance self → 0 ≤ a ≤ num_states self - 1 →
  Discrete.contains (MyEnv.action_space self) a = true.
Proof.
  intros (_ & _ & Hact & _)%instance_well_formed Ha.
  apply contains_range. lia.
Qed.

(** X5: on an instance in state [s], [k] calls of [step(0)] leave it in
    state [max(0, s - k)], whether or not the calls returned: the walk stops
    at the left wall and stays there. *)
Theorem steps_left_walk (self : MyEnv.t) (k : nat) :
  instance self →
  MyEnv.state (fst (steps (replicate k 0) self))
  = Z.max 0 (MyEnv.state self - Z.of_nat k)
  ∧ (MyEnv.state self ≤ Z.of_nat k →
     MyEnv.state (fst (steps (replicate k 0) self)) = 0).
Proof.
  intros Hinst.
  pose proof (instance_well_formed self Hinst) as (Hn & _ & _ & _ & _ & _ & Hs & _).
  assert (MyEnv.state (fst (steps (replicate k 0) self))
          = Z.max 0 (MyEnv.state self - Z.of_nat k)) as Hwalk.
  { rewrite steps_state.
    - by apply left_walk.
    - apply Forall_replicate. apply instance_valid_action; [done|lia]. }
  split; [done|]. intros Hk. rewrite Hwalk. lia.
Qed.

Lemma steps_left_walk_witness :
  MyEnv.state (fst (steps (replicate 2 0)
                      (fst (steps [1; 1; 1] (fst (MyEnv.reset line3_env))))))
  = Z.max 0 (2 - 2).
Proof.
  destruct (steps_left_walk
              (fst (steps [1; 1; 1] (fst (MyEnv.reset line3_env)))) 2)
    as [Hwalk _]; [|exact Hwalk].
  apply steps_instance, (instance_exec Reset), line3_env_instance.
Defined.

(** X6: on an instance in state [s], a run of valid actions that are all
    different from 0 leaves it in state [min(n - 1, s + length)]: every
    non-zero action is a move to the right, and the walk stops at the right
    wall. *)
Theorem steps_right_walk (self : MyEnv.t) (acts : list Z) :
  instance self →
  Forall (λ a, 1 ≤ a ≤ num_states self - 1) acts →
  MyEnv.state (fst (steps acts self))
  = Z.min (num_states self - 1) (MyEnv.state self + Z.of_nat (length acts)).
Proof.
  intros Hinst Hacts.
  pose proof (instance_well_formed self Hinst) as (Hn & _ & _ & _ & _ & _ & Hs & _).
  rewrite steps_state.
  - apply right_walk; [done..|].
    eapply Forall_impl; [exact Hacts|]. simpl. lia.
  - eapply Forall_impl; [exact Hacts|]. simpl. intros a Ha.
    apply instance_valid_action; [done|lia].
Qed.

Lemma steps_right_walk_witness :
  MyEnv.state (fst (steps [2; 1; 2] (fst (MyEnv.reset line3_env))))
  = Z.min (3 - 1) (0 + 3).
Proof.
  apply (steps_right_walk (fst (MyEnv.reset line3_env)) [2; 1; 2]).
  - apply (instance_exec Reset), line3_env_instance.
  - repeat constructor; vm_compute; discriminate.
Defined.

(** ** Invariants of an instance *)

(** X2: after any history of calls, returned or raised, an instance has at
    least one state, its current state is one of them, its two spaces and
    its two index arrays have the size of [P]'s first axis, and its two
    names for the cached tensor hold the same array. *)
Theorem instance_invariants (self : MyEnv.t) :
  instance self →
  let n := num_states self in
  1 ≤ n
  ∧ 0 ≤ MyEnv.state self ≤ n - 1
  ∧ Z.of_nat (length (MyEnv.P self)) = n
  ∧ Discrete.n (MyEnv.action_space self) = n
  ∧ MyEnv.states self = arange n
  ∧ MyEnv.actions self = arange n
  ∧ is_Some (MyEnv.T self)
  ∧ MyEnv.transition_matrix self = MyEnv.T self.
Proof.
  intros (Hn & Hlen & Hact & HS & HA & _ & Hs & T0 & HT & HTM & _)%instance_well_formed.
  simpl. rewrite HT, HTM. repeat split; done || lia.
Qed.

Lemma instance_invariants_witness :
  0 ≤ MyEnv.state (fst (steps [1; 7; 0; 1; 1] line3_env)) ≤ 3 - 1.
Proof.
  apply (instance_invariants (fst (steps [1; 7; 0; 1; 1] line3_env))).
  apply steps_instance, line3_env_instance.
Defined.

(** ** [reset] and histories *)

Lemma history_same_config history : ∀ self,
  same_config self (foldl (λ e o, exec o e) self history).
Proof.
  induction history as [|o history IH]; intros self; simpl.
  - apply same_config_refl.
  - eapply same_config_trans; [apply exec_same_config|apply IH].
Qed.

Lemma reset_same_config e e' :
  same_config e e' → MyEnv.reset e' = MyEnv.reset e.
Proof.
  destruct e, e'. unfold same_config. simpl.
  intros (-> & -> & -> & -> & -> & -> & -> & -> & -> & ->). done.
Qed.

(** X7: [reset] erases a history: whatever calls were made on an object,
    with whatever outcome, [reset] then returns the same pair and leaves
    exactly the object that [reset] would have left before them. *)
Theorem reset_erases_history (self : MyEnv.t) (history : list op) :
  MyEnv.reset (foldl (λ e o, exec o e) self history) = MyEnv.reset self.
Proof. apply reset_same_config, history_same_config. Qed.

(** ** What the array methods can raise *)

Lemma for_each_Raise {A St} (body : A → St → result St) l st e :
  for_each l body st = Raise e → ∃ x st1, x ∈ l ∧ body x st1 = Raise e.
Proof.
  revert st. induction l as [|y l IH]; intros st Hrun; [done|].
  simpl in Hrun. destruct (body y st) as [st1|e'] eqn:Hy.
  - destruct (IH st1 Hrun) as (x & st2 & Hx & Hb).
    exists x, st2. split; [by right|done].
  - injection Hrun as ->. exists y, st. split; [left|done].
Qed.

Lemma setitem_Raise {A} (l : list A) i x e :
  setitem l i x = Raise e → e = IndexError.
Proof. unfold setitem. destruct (norm_index _ _); congruence. Qed.

Lemma getitem2_Raise M i j e : getitem2 M i j = Raise e → e = IndexError.
Proof.
  unfold getitem2. destruct (getitem M i) as [row|e'] eqn:Hrow; simpl.
  - apply getitem_Raise.
  - intros [= <-]. by apply getitem_Raise in Hrow.
Qed.

Lemma setitem2_Raise M i j x e : setitem2 M i j x = Raise e → e = IndexError.
Proof.
  unfold setitem2. destruct (getitem M i) as [row|e'] eqn:Hrow; simpl.
  - destruct (setitem row j x) as [row'|e''] eqn:Hset; simpl.
    + apply setitem_Raise.
    + intros [= <-]. by apply setitem_Raise in Hset.
  - intros [= <-]. by apply getitem_Raise in Hrow.
Qed.

Lemma setitem3_Raise T i j k x e :
  setitem3 T i j k x = Raise e → e = IndexError.
Proof.
  unfold setitem3. destruct (getitem T i) as [plane|e1] eqn:Hplane; simpl.
  - destruct (getitem plane j) as [row|e2] eqn:Hrow; simpl.
    + destruct (setitem row k x) as [row'|e3] eqn:Hset; simpl.
      * destruct (setitem plane j row') as [plane'|e4] eqn:Hset'; simpl.
        -- apply setitem_Raise.
        -- intros [= <-]. by apply setitem_Raise in Hset'.
      * intros [= <-]. by apply setitem_Raise in Hset.
    + intros [= <-]. by apply getitem_Raise in Hrow.
  - intros [= <-]. by apply getitem_Raise in Hplane.
Qed.

Lemma transition_tensor_Raise S0 A0 P0 e :
  transition_tensor S0 A0 P0 = Raise e → e = IndexError.
Proof.
  unfold transition_tensor.
  destruct (zeros3_spec (Z.of_nat (length S0)) (Z.of_nat (length A0))
              (Z.of_nat (length S0))) as (T0 & -> & _); [lia..|].
  simpl. intros (s & T1 & _ & Hrow)%for_each_Raise.
  apply for_each_Raise in Hrow as (a & T2 & _ & Hcell).
  destruct (getitem2 P0 s a) as [p|e'] eqn:Hp; simpl in Hcell.
  - by apply setitem3_Raise in Hcell.
  - injection Hcell as <-. by apply getitem2_Raise in Hp.
Qed.

(** X9: whatever arguments it is given, [get_transition_matrix] either
    returns or raises [IndexError]; it raises nothing else and leaves the
    object as it was. *)
Theorem get_transition_matrix_raises_only_IndexError
    (S_arg A_arg : option (list Z)) (P_arg : option ndarray2) (self : MyEnv.t) :
  fst (MyEnv.get_transition_matrix S_arg A_arg P_arg self) = self
  ∧ (returns (snd (MyEnv.get_transition_matrix S_arg A_arg P_arg self))
     ∨ snd (MyEnv.get_transition_matrix S_arg A_arg P_arg self)
       = Raise IndexError).
Proof.
  split; [apply get_transition_matrix_fst|].
  assert (∃ S0 A0 P0,
            snd (MyEnv.get_transition_matrix S_arg A_arg P_arg self)
            = transition_tensor S0 A0 P0) as (S0 & A0 & P0 & ->).
  { destruct S_arg as [S0|], A_arg as [A0|], P_arg as [P0|];
      try (rewrite get_transition_matrix_fallback by auto; by eauto).
    rewrite get_transition_matrix_explicit. by eauto. }
  destruct (transition_tensor S0 A0 P0) as [T|e] eqn:Hrun.
  - left. by exists T.
  - right. by apply transition_tensor_Raise in Hrun as ->.
Qed.

(** ** Which matrices [__init__] accepts *)

(** Every cell [P[s, a]] with [s, a < n] exists exactly when each of the
    [n] rows has at least [n] entries. *)
Lemma rows_cover (M : ndarray2) :
  let n := Z.of_nat (length M) in
  (∀ s a, 0 ≤ s < n → 0 ≤ a < n → returns (getitem2 M s a))
  ↔ Forall (λ row, n ≤ Z.of_nat (length row)) M.
Proof.
  intros n. split.
  - intros Hdef. apply Forall_lookup. intros i row Hrow.
    apply lookup_lt_Some in Hrow as Hi.
    destruct (Hdef (Z.of_nat i) (n - 1)) as [x Hx]; [lia..|].
    unfold getitem2 in Hx.
    rewrite (getitem_lookup M (Z.of_nat i) row) in Hx;
      [|lia|by rewrite Nat2Z.id].
    simpl in Hx. apply getitem_Ok_bound in Hx; lia.
  - intros Hrows s a Hs Ha.
    destruct (lookup_lt_is_Some_2 M (Z.to_nat s)) as [row Hrow]; [lia|].
    unfold getitem2. rewrite (getitem_lookup M s row) by (done || lia).
    simpl. apply getitem_returns.
    apply (Forall_lookup_1 _ _ _ _ Hrows) in Hrow. lia.
Qed.

(** The tensor of a matrix over its own index ranges is built exactly when
    the matrix is wide enough, and fails with [IndexError] otherwise. *)
Lemma square_tensor_returns_iff (tp : ndarray2) :
  let n := Z.of_nat (length tp) in
  (returns (transition_tensor (arange n) (arange n) tp)
   ↔ Forall (λ row, n ≤ Z.of_nat (length row)) tp)
  ∧ (¬ Forall (λ row, n ≤ Z.of_nat (length row)) tp →
     transition_tensor (arange n) (arange n) tp = Raise IndexError).
Proof.
  intros n. destruct (rows_cover tp) as [Hrows Hcells]. fold n in Hrows, Hcells.
  assert (returns (transition_tensor (arange n) (arange n) tp)
          ↔ Forall (λ row, n ≤ Z.of_nat (length row)) tp) as Hiff.
  { split.
    - intros [T HT]. apply Hrows. intros s a Hs Ha.
      apply (transition_tensor_Ok_defined _ _ _ _ HT); by apply elem_of_arange.
    - intros Hall. pose proof (Hcells Hall) as Hdef.
      destruct (transition_tensor_spec_gen (arange n) (arange n) tp)
        as (T & -> & _).
      + intros s Hs%elem_of_arange. rewrite length_arange; lia.
      + intros a Ha%elem_of_arange. rewrite length_arange; lia.
      + intros s a Hs%elem_of_arange Ha%elem_of_arange. auto.
      + by eexists. }
  split; [exact Hiff|]. intros Hno.
  destruct (transition_tensor (arange n) (arange n) tp) as [T|e] eqn:Hrun.
  - exfalso. apply Hno, Hiff. by eexists.
  - by apply transition_tensor_Raise in Hrun as ->.
Qed.

(** X1: [__init__] returns exactly when the seed is absent or non-negative,
    the rows of the matrix all have one length, there is at least one row,
    and every row has at least as many entries as there are rows.  On a
    matrix with at least one row it raises [ValueError] exactly when the
    seed is negative or the rows have unequal lengths, and [IndexError]
    exactly when seed and rows pass but a row is shorter than the number of
    rows.  Columns beyond the [n]-th are never read, and neither the horizon
    nor the rewards table is ever checked. *)
Theorem init_returns_iff (tp : list (list float)) (h : Z) (r : list float)
    (seed : option Z) :
  let n := Z.of_nat (length tp) in
  (returns (MyEnv.__init__ tp h r seed)
   ↔ valid_seed seed = true ∧ rectangular tp = true ∧ 1 ≤ n
     ∧ Forall (λ row, n ≤ Z.of_nat (length row)) tp)
  ∧ (1 ≤ n →
     (MyEnv.__init__ tp h r seed = Raise ValueError
      ↔ valid_seed seed = false ∨ rectangular tp = false)
     ∧ (MyEnv.__init__ tp h r seed = Raise IndexError
        ↔ valid_seed seed = true ∧ rectangular tp = true
          ∧ ¬ Forall (λ row, n ≤ Z.of_nat (length row)) tp)).
Proof.
  intros n. rewrite init_equation. fold n.
  destruct (square_tensor_returns_iff tp) as [Hiff Hshort].
  fold n in Hiff, Hshort.
  destruct (valid_seed seed); cycle 1.
  { split; [split; [by intros [? ?]|by intros (? & _)]|].
    intros _. split; split.
    - intros _. by left.
    - done.
    - done.
    - by intros (? & _). }
  destruct (rectangular tp); cycle 1.
  { split; [split; [by intros [? ?]|by intros (_ & ? & _)]|].
    intros _. split; split.
    - intros _. by right.
    - done.
    - done.
    - by intros (_ & ? & _). }
  destruct (Z.ltb_spec 0 n) as [Hn|Hn]; cycle 1.
  { split; [|lia]. split; [by intros [? ?]|]. intros (_ & _ & ? & _). lia. }
  destruct (transition_tensor (arange n) (arange n) tp) as [T|e] eqn:Hrun;
    simpl.
  - assert (Forall (λ row, n ≤ Z.of_nat (length row)) tp) as Hwide
      by (apply Hiff; by eexists).
    split; [split|].
    + intros _. repeat split; done || lia.
    + intros _. by eexists.
    + intros _. split; split.
      * done.
      * by intros [?|?].
      * done.
      * by intros (_ & _ & Hno).
  - assert (¬ Forall (λ row, n ≤ Z.of_nat (length row)) tp) as Hno.
    { intros Hwide. apply Hiff in Hwide as [T HT]. done. }
    pose proof (Hshort Hno) as [= ->].
    split; [split|].
    + by intros [? ?].
    + by intros (_ & _ & _ & Hwide).
    + intros _. split; split.
      * done.
      * by intros [?|?].
      * done.
      * done.
Qed.

Lemma init_returns_iff_witness :
  returns (MyEnv.__init__ [[1; 0.5; 0]; [0.5; 1; 0]]%float 10 [] (Some 7))
  ∧ MyEnv.__init__ [[1]; [1]]%float 10 [0; 1]%float None = Raise IndexError
  ∧ MyEnv.__init__ [[1; 1]; [1; 1]]%float 10 [0; 1]%float (Some (-1))
    = Raise ValueError
  ∧ MyEnv.__init__ [[1; 1; 1]; [1; 1]]%float 10 [0; 1]%float None
    = Raise ValueError.
Proof.
  split; [|split; [|split]].
  - apply (init_returns_iff [[1; 0.5; 0]; [0.5; 1; 0]]%float 10 [] (Some 7)).
    split; [reflexivity|]. split; [reflexivity|]. split; [simpl; lia|].
    repeat constructor; simpl; lia.
  - apply (init_returns_iff [[1]; [1]]%float 10 [0; 1]%float None);
      [simpl; lia|].
    split; [reflexivity|]. split; [reflexivity|].
    intros Hrows. inversion Hrows as [|? ? Hrow _]. simpl in Hrow. lia.
  - apply (init_returns_iff [[1; 1]; [1; 1]]%float 10 [0; 1]%float (Some (-1)));
      [simpl; lia|]. by left.
  - apply (init_returns_iff [[1; 1; 1]; [1; 1]]%float 10 [0; 1]%float None);
      [simpl; lia|]. by right.
Defined.

(** ** When [get_reward_per_action] returns *)

Lemma move_top n : 1 ≤ n → MyEnv.move n (n - 1) (n - 1) = n - 1.
Proof. intros Hn. unfold MyEnv.move. destruct (Z.eqb_spec (n - 1) 0); lia. Qed.

(** X10: on an instance, [get_reward_per_action] returns exactly when the
    rewards table has at least [n] entries, and raises [IndexError] exactly
    when it has fewer: the last state is always somebody's successor. *)
Theorem get_reward_per_action_returns_iff (self : MyEnv.t) :
  instance self →
  let n := num_states self in
  (returns (snd (MyEnv.get_reward_per_action self))
   ↔ n ≤ Z.of_nat (length (MyEnv.rewards self)))
  ∧ (snd (MyEnv.get_reward_per_action self) = Raise IndexError
     ↔ Z.of_nat (length (MyEnv.rewards self)) < n).
Proof.
  intros Hinst n.
  destruct (instance_well_formed self Hinst) as (Hn & _ & Hact & _).
  fold n in Hn, Hact.
  assert (returns (snd (MyEnv.get_reward_per_action self))
          → n ≤ Z.of_nat (length (MyEnv.rewards self))) as Hret.
  { intros [R HR]. unfold MyEnv.get_reward_per_action in HR. simpl in HR.
    fold (num_states self) in HR. fold n in HR. rewrite Hact in HR.
    destruct (zeros2 n n) as [R0|]; [simpl in HR|done].
    destruct (for_each_Ok_body _ _ _ _ HR (n - 1)) as (R1 & R2 & Hrow).
    { apply elem_of_arange. lia. }
    destruct (for_each_Ok_body _ _ _ _ Hrow (n - 1)) as (R3 & R4 & Hcell).
    { apply elem_of_arange. lia. }
    simpl in Hcell. rewrite move_top in Hcell by done.
    destruct (getitem (MyEnv.rewards self) (n - 1)) as [r|] eqn:Hr; [|done].
    apply getitem_Ok_bound in Hr; lia. }
  assert (n ≤ Z.of_nat (length (MyEnv.rewards self))
          → returns (snd (MyEnv.get_reward_per_action self))) as Hcover.
  { intros Hlen.
    destruct (get_reward_per_action_spec_gen self) as (R & -> & _).
    - fold (num_states self). lia.
    - lia.
    - done.
    - by exists R. }
  split; [by split|]. split.
  - intros Hraise.
    destruct (Z.lt_ge_cases (Z.of_nat (length (MyEnv.rewards self))) n)
      as [|Hge]; [done|].
    destruct (Hcover Hge) as [R HR]. congruence.
  - intros Hshort.
    destruct (snd (MyEnv.get_reward_per_action self)) as [R|e] eqn:Hrun.
    { assert (n ≤ Z.of_nat (length (MyEnv.rewards self))) as Hlen
        by (apply Hret; by exists R).
      lia. }
    f_equal. unfold MyEnv.get_reward_per_action in Hrun. simpl in Hrun.
    fold (num_states self) in Hrun. fold n in Hrun. rewrite Hact in Hrun.
    destruct (zeros2_spec n n) as (R0 & HR0 & _); [lia..|].
    rewrite HR0 in Hrun. simpl in Hrun.
    apply for_each_Raise in Hrun as (s & R1 & _ & Hrow).
    apply for_each_Raise in Hrow as (a & R2 & _ & Hcell).
    simpl in Hcell.
    destruct (getitem (MyEnv.rewards self) (MyEnv.move n s a)) as [r|e'] eqn:Hr;
      simpl in Hcell.
    + by apply setitem2_Raise in Hcell.
    + injection Hcell as <-. by apply getitem_Raise in Hr.
Qed.

Lemma get_reward_per_action_returns_iff_witness :
  returns (snd (MyEnv.get_reward_per_action line3_env))
  ∧ snd (MyEnv.get_reward_per_action (fst (steps [1] short_rewards_env)))
    = Raise IndexError.
Proof.
  split.
  - apply (get_reward_per_action_returns_iff line3_env line3_env_instance).
    vm_compute. discriminate.
  - apply get_reward_per_action_returns_iff; [|reflexivity].
    apply steps_instance.
    by apply (instance_init (ones2 3 3) 5 [0; 1]%float None).
Defined.

(** ** [get_transition_matrix] with all three arguments *)

(** X8: when [S], [A] and [P] are all passed, with the entries of [S] in
    [[0, len(S))], those of [A] in [[0, len(A))] and [P] defined on their
    pairs, the result has shape [(len(S), len(A), len(S))]; it holds
    [P[s, a]] at [(s, a, clamp(s ± 1, 0, len(S) - 1))] for the [s] of [S] and
    [a] of [A], and [0] in every other cell (also in the planes of states
    that [S] does not list).  The object's own fields play no part. *)
Theorem explicit_transition_tensor (S0 A0 : list Z) (P0 : ndarray2)
    (self : MyEnv.t) :
  let nS := Z.of_nat (length S0) in
  let nA := Z.of_nat (length A0) in
  (∀ s, s ∈ S0 → 0 ≤ s < nS) →
  (∀ a, a ∈ A0 → 0 ≤ a < nA) →
  (∀ s a, s ∈ S0 → a ∈ A0 → returns (getitem2 P0 s a)) →
  ∃ T, MyEnv.get_transition_matrix (Some S0) (Some A0) (Some P0) self
       = (self, Ok T)
       ∧ shape3 nS nA nS T
       ∧ ∀ i j k, 0 ≤ i < nS → 0 ≤ j < nA → 0 ≤ k < nS →
           ∃ v, getitem3 T i j k = Ok v
                ∧ (i ∈ S0 ∧ j ∈ A0 ∧ k = successor nS i j →
                   getitem2 P0 i j = Ok v)
                ∧ (¬ (i ∈ S0 ∧ j ∈ A0 ∧ k = successor nS i j) →
                   v = 0%float).
Proof.
  intros nS nA HS HA HP.
  destruct (transition_tensor_spec_gen S0 A0 P0 HS HA HP)
    as (T & Hrun & Hshape & Hcells).
  fold nS nA in Hshape, Hcells.
  exists T. split; [by rewrite get_transition_matrix_explicit, Hrun|].
  split; [done|]. intros i j k Hi Hj Hk.
  exists (cell3 T i j k). split; [by apply (getitem3_cell Hshape)|].
  destruct (Hcells i j k Hi Hj Hk) as [Hw Hnw].
  rewrite move_successor in Hw, Hnw by lia.
  split; [intros (? & ? & ?); auto|]. intros Hneg. apply Hnw. tauto.
Qed.

Lemma explicit_transition_tensor_witness :
  ∃ T, MyEnv.get_transition_matrix (Some [1; 0; 1]) (Some [0; 1])
         (Some [[0.5; 0.5]; [0.5; 0.5]; [0.5; 0.5]]%float) default_env
       = (default_env, Ok T)
       ∧ shape3 3 2 3 T.
Proof.
  destruct (explicit_transition_tensor [1; 0; 1] [0; 1]
              [[0.5; 0.5]; [0.5; 0.5]; [0.5; 0.5]]%float default_env)
    as (T & Hrun & Hshape & _).
  - intros s Hs%list_elem_of_In. simpl in *. lia.
  - intros a Ha%list_elem_of_In. simpl in *. lia.
  - intros s a Hs%list_elem_of_In Ha%list_elem_of_In. simpl in Hs, Ha.
    destruct Hs as [<-|[<-|[<-|[]]]], Ha as [<-|[<-|[]]]; by eexists.
  - exists T. split; [exact Hrun|exact Hshape].
Defined.

(** ** The tables and the dynamics agree *)

(** X11: on an instance whose rewards table has at least [n] entries, the
    reward a returning [step(a)] hands back from state [s] is the entry
    [R[s, a]] of the table [get_reward_per_action()] computes. *)
Theorem reward_table_agrees_with_step (self : MyEnv.t) (a : Z)
    (out : MyEnv.step_result) :
  instance self →
  num_states self ≤ Z.of_nat (length (MyEnv.rewards self)) →
  snd (MyEnv.step a self) = Ok out →
  ∃ R, snd (MyEnv.get_reward_per_action self) = Ok R
       ∧ getitem2 R (MyEnv.state self) a = Ok (MyEnv.reward out).
Proof.
  intros Hinst Hlen (Hvalid & c & _ & Hreward & _)%step_Ok.
  destruct (instance_well_formed self Hinst)
    as (Hn & _ & Hact & _ & _ & _ & Hs & _).
  apply contains_range in Hvalid. rewrite Hact in Hvalid.
  destruct (get_reward_per_action_spec_gen self) as (R & -> & Hshape & Hcells).
  { fold (num_states self). lia. }
  { lia. }
  { done. }
  fold (num_states self) in Hshape, Hcells. rewrite Hact in Hshape, Hcells.
  exists R. split; [done|].
  rewrite (getitem2_cell Hshape) by lia. f_equal.
  destruct (Hcells (MyEnv.state self) a) as [Hw _]; [lia..|].
  rewrite Hw in Hreward by (rewrite !elem_of_arange; lia). congruence.
Qed.

Lemma reward_table_agrees_with_step_witness :
  ∃ R, snd (MyEnv.get_reward_per_action (fst (MyEnv.reset line3_env))) = Ok R
       ∧ getitem2 R 0 2 = Ok 0.5%float.
Proof.
  apply (reward_table_agrees_with_step (fst (MyEnv.reset line3_env)) 2
           (MyEnv.StepResult 1 0.5 false false ∅)).
  - apply (instance_exec Reset), line3_env_instance.
  - vm_compute. discriminate.
  - reflexivity.
Defined.

(** X12: on an instance, the row of the cached tensor for the current state
    and a valid action [a] holds [P[state, a]] at the state [step(a)] moves
    to and [0] at every other state: the tensor's support is the move that
    [step] makes. *)
Theorem cached_tensor_agrees_with_step (self : MyEnv.t) (a : Z) :
  instance self →
  Discrete.contains (MyEnv.action_space self) a = true →
  let next := MyEnv.state (fst (MyEnv.step a self)) in
  ∃ T p, MyEnv.T self = Some T
         ∧ getitem2 (MyEnv.P self) (MyEnv.state self) a = Ok p
         ∧ getitem3 T (MyEnv.state self) a next = Ok p
         ∧ ∀ k, 0 ≤ k < num_states self → k ≠ next →
             getitem3 T (MyEnv.state self) a k = Ok 0%float.
Proof.
  intros Hinst Hvalid next.
  destruct (instance_well_formed self Hinst)
    as (Hn & _ & Hact & _ & _ & _ & Hs & _).
  assert (next = successor (num_states self) (MyEnv.state self) a) as Hnext.
  { unfold next. destruct (step_valid self a Hvalid) as [-> _]. simpl.
    by apply move_successor. }
  apply contains_range in Hvalid. rewrite Hact in Hvalid.
  destruct (instance_tensor self Hinst) as (T & _ & HT & _ & _ & Hcells).
  destruct (Hcells (MyEnv.state self) a) as (p & Hp & Hrow); [lia..|].
  pose proof (successor_range (n:=num_states self) (MyEnv.state self) a Hn).
  exists T, p. do 2 (split; [done|]). split.
  - rewrite Hrow by lia. by rewrite decide_True.
  - intros k Hk Hne. rewrite Hrow by lia. by rewrite decide_False by congruence.
Qed.

Lemma cached_tensor_agrees_with_step_witness :
  ∃ T p, MyEnv.T identity_env = Some T
         ∧ getitem2 (MyEnv.P identity_env) 0 1 = Ok p
         ∧ getitem3 T 0 1 1 = Ok p
         ∧ ∀ k, 0 ≤ k < 2 → k ≠ 1 → getitem3 T 0 1 k = Ok 0%float.
Proof.
  apply (cached_tensor_agrees_with_step identity_env 1); [|reflexivity].
  by apply (instance_init [[1; 0]; [0; 1]]%float 10 [0; 1]%float None).
Defined.
